(** * SSCHA minimizer: a shallow embedding of [Modules/SchaMinimizer.py]

    The development follows the Python module function by function:
    [PerformRootStep], [GetStructPrecond], [GetBestWykoffStep] and the
    constructor and the methods [minimization_step], [is_converged],
    [update], [get_free_energy], [init], [run],
    [check_imaginary_frequencies] and [check_stop] of the class
    [SSCHA_Minimizer].

    Numbers.  numpy's [float64] and [complex128] are idealised by one
    closed field [C] (the reals are the elements satisfying [Num.real]);
    arrays [NQ x 3N x 3N] are sequences of square matrices of order
    [nat_ * 3].  An operation of numpy that leaves the field (a square
    root of a negative number, a division by zero) produces [nan] or
    [inf]: the outcome [NonFinite] records that, and the embedding does
    not follow such a value any further.

    Collaborators.  The ensemble, the symmetry engine and the phonon
    objects of CellConstructor are not part of the module; they are the
    fields of the records [EnsembleOps], [SymmetryOps] and [PhononOps],
    and numpy's [eigh] is the field [eigh] of [NumpyOps].

    Left out.  Printing, timing, plotting, the files written by
    [save_qe] and the reading of namelists have no effect on the values
    studied here and are not embedded: [setup_from_namelist],
    [print_info], [finalize], [plot_results] and [get_stress_tensor]
    only read files, print, or hand over to the ensemble.
    [ApplyLambdaTensor] and [ApplyFCPrecond] are called by no method and
    need [exp] and [cosh]; they are not embedded either. *)

From HB Require Import structures.
From mathcomp Require Import boot order algebra.
From mathcomp Require Import algC.
From Stdlib Require Import String.

Set Implicit Arguments.
Unset Strict Implicit.
Unset Printing Implicit Defensive.

Import Order.TTheory GRing.Theory Num.Def Num.Theory.
Local Open Scope ring_scope.
Local Open Scope sesquilinear_scope.

(** * Part I: the program *)

(** ** Python strings as an [eqType] *)

HB.instance Definition _ := hasDecEq.Build string String.eqb_spec.

(** ** Outcomes of a call *)

(** The exceptions the module raises itself. *)
Variant exn := ValueError | IndexError | TypeError.

(** A call returns ([Ok]), raises ([Raise]), or produces a value that
    holds [nan] or [inf] ([NonFinite]). *)
Variant outcome (A : Type) := Ok (a : A) | Raise (e : exn) | NonFinite.

Arguments Ok {A} a.
Arguments Raise {A} e.
Arguments NonFinite {A}.

Definition bind {A B : Type} (x : outcome A) (f : A -> outcome B) : outcome B :=
  match x with
  | Ok a => f a
  | Raise e => Raise e
  | NonFinite => NonFinite
  end.

Notation "x <- c ;; k" := (bind c (fun x => k))
  (at level 100, c at next level, right associativity, only parsing).
Notation "' p <- c ;; k" := (bind c (fun x => let: p := x in k))
  (at level 100, p pattern, c at next level, right associativity, only parsing).

Definition raises {A : Type} (x : outcome A) : bool :=
  if x is Raise _ then true else false.

(** ** Floating-point operations that can leave the field *)

Section Floats.

Variable C : numClosedFieldType.

(** [x / y] on floats: [inf] or [nan] when [y] is zero. *)
Definition fdiv (x y : C) : outcome C :=
  if y == 0 then NonFinite else Ok (x / y).

(** [np.sqrt] on a real float: [nan] below zero. *)
Definition fsqrt (x : C) : outcome C :=
  if x < 0 then NonFinite else Ok (sqrtC x).

(** [np.sqrt] on a real vector: [None] when an entry is [nan]. *)
Definition np_sqrt n (w : 'rV[C]_n) : option 'rV[C]_n :=
  if [forall a, ~~ (w 0 a < 0)] then Some (map_mx sqrtC w) else None.

(** [s[-1]] on a Python list. *)
Definition last_item (s : seq C) : outcome C :=
  if s is x :: s' then Ok (last x s') else Raise IndexError.

End Floats.

(** ** [PerformRootStep] *)

Section RootStep.

Variable C : numClosedFieldType.
Variable n : nat.

Local Notation block := 'M[C]_n.

(** [np.linalg.eigh]: eigenvalues and a matrix whose columns are the
    eigenvectors. *)
Variable eigh : block -> 'rV[C]_n * block.

(** What numpy documents of [eigh] on a Hermitian matrix: real
    eigenvalues, orthonormal eigenvector columns, and
    [D = V diag(w) V^H]. *)
Definition eigh_spec (D : block) (wV : 'rV[C]_n * block) : Prop :=
  [/\ wV.1 \is a realmx,
      wV.2 ^t* *m wV.2 = 1%:M &
      D = wV.2 *m diag_mx wV.1 *m wV.2 ^t* ].

Definition ALLOWED_REPRESENTATION : seq string :=
  [:: "normal"; "root4"; "sqrt"; "root2"]%string.

(** [eigvals[eigvals < 0] = 0.] *)
Definition regularize (eigvals : 'rV[C]_n) : 'rV[C]_n :=
  map_mx (fun x => if x < 0 then 0 else x) eigvals.

(** [np.einsum("a, ba, ca", x, np.conj(eigvects), eigvects)]: the index
    [a] is summed, the result is indexed by [b, c]. *)
Definition einsum_a_ba_ca (x : 'rV[C]_n) (eigvects : block) : block :=
  \matrix_(b, c) \sum_a x 0 a * (eigvects b a)^* * eigvects c a.

(** The body of the first loop over [iq]: the pair
    [(new_dyn[iq], new_grad[iq])], or [None] when [np.sqrt] met a
    negative eigenvalue and filled the block with [nan]. *)
Definition root_conversion (root4 : bool) (iq : nat) (dyn_iq grad_iq : block)
  : option (block * block) :=
  let: (eigvals, eigvects) := eigh dyn_iq in
  let eigvals := if iq == 0%N then regularize eigvals else eigvals in
  if np_sqrt eigvals is Some sqrt_eigvals then
    let new_dyn := einsum_a_ba_ca sqrt_eigvals eigvects in
    let new_grad := new_dyn *m grad_iq + grad_iq *m new_dyn in
    if root4 then
      let new_dyn := einsum_a_ba_ca (map_mx sqrtC sqrt_eigvals) eigvects in
      Some (new_dyn, new_dyn *m new_grad + new_grad *m new_dyn)
    else Some (new_dyn, new_grad)
  else None.

(** The body of the second loop over [iq]. *)
Definition root_inversion (root4 : bool) (new_dyn_iq : block) : block :=
  let new_dyn_iq := new_dyn_iq *m new_dyn_iq in
  if root4 then new_dyn_iq *m new_dyn_iq else new_dyn_iq.

(** [all_finite s]: the blocks of [s] when none is [nan]. *)
Definition all_finite (T : Type) (s : seq (option T)) : outcome (seq T) :=
  if all isSome s then Ok (pmap id s) else NonFinite.

Definition PerformRootStep (dyn_q grad_q : seq block) (step_size : C)
    (root_representation minimization_algorithm : string)
  : outcome (seq block) :=
  if root_representation \notin ALLOWED_REPRESENTATION then Raise ValueError
  else
    let root_representation :=
      if root_representation == "root2"%string then "sqrt"%string
      else root_representation in
    let nq := size dyn_q in
    if nq != size grad_q then Raise ValueError
    else
      let root4 := root_representation == "root4"%string in
      let converted :=
        if root_representation != "normal"%string then
          mkseq (fun iq => root_conversion root4 iq (nth 0 dyn_q iq) (nth 0 grad_q iq)) nq
        else mkseq (fun iq => Some (nth 0 dyn_q iq, nth 0 grad_q iq)) nq in
      if minimization_algorithm == "sdes"%string then
        let stepped :=
          [seq omap (fun dg : block * block => dg.1 - step_size *: dg.2) c
          | c <- converted] in
        let squared :=
          if root_representation != "normal"%string then
            [seq omap (root_inversion root4) b | b <- stepped]
          else stepped in
        all_finite squared
      else Raise ValueError.

End RootStep.

(** ** The data model *)

Section DataModel.

Variable C : numClosedFieldType.

(** [nat_] is [N_atoms]; a block is [3N x 3N], positions are [N x 3]. *)
Variable nat_ : nat.

(** What a [Phonons] object holds besides the matrices and the atoms
    (unit cell, [q_tot], [q_stars]); only collaborators read it.  The
    object keeps [len(q_tot) = len(dynmats)]. *)
Variable QGrid : Type.

(** [CC.Structure.Structure]: positions and [get_masses_array()]. *)
Record CC_Structure := {
  coords : 'M[C]_(nat_, 3);
  masses : 'rV[C]_nat_
}.

(** [CC.Phonons.Phonons]. *)
Record Phonons := {
  structure : CC_Structure;
  dynmats : seq 'M[C]_(nat_ * 3);
  qgrid : QGrid
}.

(** The options of a run: attributes that no method below assigns
    after [__init__] and [setup_from_namelist]. *)
Record Configuration := {
  root_representation : string;
  kong_liu_ratio : C;
  meaningful_factor : C;
  minimization_algorithm : string;
  min_step_dyn : C;
  precond_wyck : bool;
  precond_dyn : bool;
  minim_struct : bool;
  gradi_op : string;
  neglect_symmetries : bool;
  eq_energy : C;
  max_ka : int
}.

(** The lists [__fe__], [__fe_err__], [__gc__], [__gc_err__], [__gw__],
    [__gw_err__] and [__KL__]. *)
Record MinimizationHistory := {
  __fe__ : seq C;
  __fe_err__ : seq C;
  __gc__ : seq C;
  __gc_err__ : seq C;
  __gw__ : seq C;
  __gw_err__ : seq C;
  __KL__ : seq C
}.

Definition empty_history : MinimizationHistory :=
  {| __fe__ := [::]; __fe_err__ := [::]; __gc__ := [::]; __gc_err__ := [::];
     __gw__ := [::]; __gw_err__ := [::]; __KL__ := [::] |}.

(** [Ens] is the state of the [Ensemble] object. *)
Variable Ens : Type.

Record SSCHA_Minimizer := {
  config : Configuration;
  ensemble : Ens;
  dyn : Phonons;
  min_step_struc : C;
  prev_grad : seq 'M[C]_(nat_ * 3);
  __converged__ : bool;
  history : MinimizationHistory
}.

End DataModel.

(** ** Collaborators *)

Section Collaborators.

Variable C : numClosedFieldType.
Variable nat_ : nat.
Variable QGrid : Type.
Variable Ens : Type.

Local Notation block := 'M[C]_(nat_ * 3).
Local Notation positions := 'M[C]_(nat_, 3).
Local Notation Phonons := (Phonons C nat_ QGrid).
Local Notation CC_Structure := (CC_Structure C nat_).

(** The [Ensemble] object: its estimators, [update_weights], and the
    attributes [N], [current_T], [supercell], [current_dyn], [dyn_0]. *)
Record EnsembleOps := {
  (* get_preconditioned_gradient(True, True, preconditioned = p) *)
  get_preconditioned_gradient : Ens -> bool -> seq block * seq block;
  (* get_average_forces(True) *)
  get_average_forces : Ens -> positions * positions;
  (* get_free_energy(return_error = True) *)
  get_free_energy : Ens -> C * C;
  get_effective_sample_size : Ens -> C;
  update_weights : Ens -> Phonons -> C -> Ens;
  N : Ens -> nat;
  current_T : Ens -> C;
  supercell : Ens -> seq nat;
  current_dyn : Ens -> Phonons;
  dyn_0 : Ens -> Phonons
}.

(** [CC.symmetries.QE_Symmetry(structure)]; the in-place methods return
    the array they leave behind. *)
Record SymmetryOps := {
  (* SymmetrizeFCQ(fcq, q_stars, asr = mode) *)
  SymmetrizeFCQ : Phonons -> seq block -> string -> seq block;
  (* ImposeSumRule(block, asr = mode) *)
  ImposeSumRule : CC_Structure -> block -> string -> block;
  (* SetupQPoint() then SymmetrizeVector(v) *)
  SymmetrizeVector : CC_Structure -> positions -> positions;
  (* the attribute QE_nsymq, before (false) or after (true) SetupQPoint() *)
  QE_nsymq : CC_Structure -> bool -> nat
}.

(** [CC.Phonons] and [CC.Methods]. *)
Record PhononOps := {
  (* dyn.DyagDinQ(0): frequencies and polarization vectors (columns) *)
  DyagDinQ0 : Phonons -> 'rV[C]_(nat_ * 3) * block;
  (* CC.Methods.get_translations(pols, masses): a mask over the modes *)
  get_translations : block -> 'rV[C]_nat_ -> pred 'I_(nat_ * 3);
  (* dyn.GenerateSupercellDyn(supercell), DyagDinQ(0) of it, and
     get_translations on the result: each mode's frequency with its
     translation flag, frequencies in increasing order *)
  supercell_modes : Phonons -> seq nat -> seq (C * bool);
  BOHR_TO_ANGSTROM : C
}.

(** numpy's linear algebra. *)
Record NumpyOps := {
  eigh : block -> 'rV[C]_(nat_ * 3) * block;
  (* np.linalg.eigvals *)
  eigvals : block -> 'rV[C]_(nat_ * 3)
}.

End Collaborators.

(** ** The structure preconditioner *)

Section Preconditioner.

Variable C : numClosedFieldType.
Variable nat_ : nat.
Variable QGrid : Type.

Local Notation block := 'M[C]_(nat_ * 3).
Local Notation Phonons := (Phonons C nat_ QGrid).

Variable ph : PhononOps C nat_ QGrid.
Variable np : NumpyOps C nat_.

(** [_m_]: [_m_[3*i : 3*i + 3] = mass[i]]. *)
Definition spread_masses (mass : 'rV[C]_nat_) : 'rV[C]_(nat_ * 3) :=
  mxvec (\matrix_(i < nat_, j < 3) mass 0 i).

(** [np.einsum("a,b,c,ac,bc -> ab", _msi_, _msi_, wm2, pols, pols)],
    with [c] ranging over the modes the mask keeps. *)
Definition einsum_precond (msi wm2 : 'rV[C]_(nat_ * 3))
    (kept : pred 'I_(nat_ * 3)) (pols : block) : block :=
  \matrix_(a, b) \sum_(c | kept c) msi 0 a * msi 0 b * wm2 0 c * pols a c * pols b c.

(** [GetStructPrecond].  [1 / np.sqrt(_m_)] is finite when every mass is
    positive and [1 / w**2] when no kept frequency is zero; a value that
    is not finite reaches the result as soon as one mode is kept. *)
Definition GetStructPrecond (current_dyn : Phonons) : outcome block :=
  let: (w, pols) := DyagDinQ0 ph current_dyn in
  let mass := masses (structure current_dyn) in
  let _m_ := spread_masses mass in
  let _msi_ := map_mx (fun m => 1 / sqrtC m) _m_ in
  let not_trans := [pred c | ~~ get_translations ph pols mass c] in
  let pols := map_mx (@Re C) pols in
  let wm2 := map_mx (fun x => 1 / x ^+ 2) w in
  let finite :=
    [forall a, 0 < _m_ 0 a] && [forall c, not_trans c ==> (w 0 c != 0)] in
  if [exists c, not_trans c] && ~~ finite then NonFinite
  else
    let precond := einsum_precond _msi_ wm2 not_trans pols in
    Ok (BOHR_TO_ANGSTROM ph ^+ 2 *: precond).

(** [np.max] of a real array. *)
Definition np_max (s : seq C) : outcome C :=
  if s is x :: s' then Ok (foldl Order.max x s') else Raise ValueError.

Definition GetBestWykoffStep (current_dyn : Phonons) : outcome C :=
  if dynmats current_dyn is dynmats0 :: _ then
    lambda_max <- np_max [seq 'Re (eigvals np dynmats0 0 a) | a <- enum 'I_(nat_ * 3)] ;;
    inverse <- fdiv 1 lambda_max ;;
    Ok (inverse * BOHR_TO_ANGSTROM ph ^+ 2)
  else Raise IndexError.

End Preconditioner.

(** ** The class [SSCHA_Minimizer] *)

Section Minimizer.

Variable C : numClosedFieldType.
Variable nat_ : nat.
Variable QGrid : Type.
Variable Ens : Type.

Local Notation block := 'M[C]_(nat_ * 3).
Local Notation positions := 'M[C]_(nat_, 3).
Local Notation Phonons := (Phonons C nat_ QGrid).
Local Notation CC_Structure := (CC_Structure C nat_).
Local Notation SSCHA_Minimizer := (SSCHA_Minimizer C nat_ QGrid Ens).
Local Notation MinimizationHistory := (MinimizationHistory C).

Variable ens : EnsembleOps C nat_ QGrid Ens.
Variable sym : SymmetryOps C nat_ QGrid.
Variable ph : PhononOps C nat_ QGrid.
Variable np : NumpyOps C nat_.

(** *** Assignments to attributes *)

Definition set_coords (d : Phonons) (x : positions) : Phonons :=
  {| structure := {| coords := x; masses := masses (structure d) |};
     dynmats := dynmats d; qgrid := qgrid d |}.

Definition set_dynmats (d : Phonons) (m : seq block) : Phonons :=
  {| structure := structure d; dynmats := m; qgrid := qgrid d |}.

Definition set_ensemble (self : SSCHA_Minimizer) (e : Ens) : SSCHA_Minimizer :=
  {| config := config self; ensemble := e; dyn := dyn self;
     min_step_struc := min_step_struc self; prev_grad := prev_grad self;
     __converged__ := __converged__ self; history := history self |}.

Definition set_dyn (self : SSCHA_Minimizer) (d : Phonons) : SSCHA_Minimizer :=
  {| config := config self; ensemble := ensemble self; dyn := d;
     min_step_struc := min_step_struc self; prev_grad := prev_grad self;
     __converged__ := __converged__ self; history := history self |}.

Definition set_min_step_struc (self : SSCHA_Minimizer) (x : C) : SSCHA_Minimizer :=
  {| config := config self; ensemble := ensemble self; dyn := dyn self;
     min_step_struc := x; prev_grad := prev_grad self;
     __converged__ := __converged__ self; history := history self |}.

Definition set_prev_grad (self : SSCHA_Minimizer) (g : seq block) : SSCHA_Minimizer :=
  {| config := config self; ensemble := ensemble self; dyn := dyn self;
     min_step_struc := min_step_struc self; prev_grad := g;
     __converged__ := __converged__ self; history := history self |}.

Definition set_converged (self : SSCHA_Minimizer) (b : bool) : SSCHA_Minimizer :=
  {| config := config self; ensemble := ensemble self; dyn := dyn self;
     min_step_struc := min_step_struc self; prev_grad := prev_grad self;
     __converged__ := b; history := history self |}.

Definition set_history (self : SSCHA_Minimizer) (h : MinimizationHistory) : SSCHA_Minimizer :=
  {| config := config self; ensemble := ensemble self; dyn := dyn self;
     min_step_struc := min_step_struc self; prev_grad := prev_grad self;
     __converged__ := __converged__ self; history := h |}.

(** [__gw__.append(gw); __gw_err__.append(gw_err)] *)
Definition append_gw (h : MinimizationHistory) (gw gw_err : C) : MinimizationHistory :=
  {| __fe__ := __fe__ h; __fe_err__ := __fe_err__ h;
     __gc__ := __gc__ h; __gc_err__ := __gc_err__ h;
     __gw__ := rcons (__gw__ h) gw; __gw_err__ := rcons (__gw_err__ h) gw_err;
     __KL__ := __KL__ h |}.

(** [__gc__.append(gc); __gc_err__.append(gc_err)] *)
Definition append_gc (h : MinimizationHistory) (gc gc_err : C) : MinimizationHistory :=
  {| __fe__ := __fe__ h; __fe_err__ := __fe_err__ h;
     __gc__ := rcons (__gc__ h) gc; __gc_err__ := rcons (__gc_err__ h) gc_err;
     __gw__ := __gw__ h; __gw_err__ := __gw_err__ h;
     __KL__ := __KL__ h |}.

(** [__fe__.append(fe); __fe_err__.append(err)] *)
Definition append_fe (h : MinimizationHistory) (fe err : C) : MinimizationHistory :=
  {| __fe__ := rcons (__fe__ h) fe; __fe_err__ := rcons (__fe_err__ h) err;
     __gc__ := __gc__ h; __gc_err__ := __gc_err__ h;
     __gw__ := __gw__ h; __gw_err__ := __gw_err__ h;
     __KL__ := __KL__ h |}.

(** [__KL__.append(kl)] *)
Definition append_KL (h : MinimizationHistory) (kl : C) : MinimizationHistory :=
  {| __fe__ := __fe__ h; __fe_err__ := __fe_err__ h;
     __gc__ := __gc__ h; __gc_err__ := __gc_err__ h;
     __gw__ := __gw__ h; __gw_err__ := __gw_err__ h;
     __KL__ := rcons (__KL__ h) kl |}.

Definition is_converged (self : SSCHA_Minimizer) : bool := __converged__ self.

(** [update]: [self.ensemble.update_weights(self.dyn, self.ensemble.current_T)]. *)
Definition update (self : SSCHA_Minimizer) : SSCHA_Minimizer :=
  let e := ensemble self in
  set_ensemble self (update_weights ens e (dyn self) (current_T ens e)).

(** [get_free_energy(True)]: the pair divided by [np.prod(supercell)]. *)
Definition get_free_energy_per_cell (self : SSCHA_Minimizer) : outcome (C * C) :=
  let e := ensemble self in
  let: (fe, err) := get_free_energy ens e in
  let cells := (\prod_(x <- supercell ens e) x)%N in
  fe <- fdiv fe cells%:R ;;
  err <- fdiv err cells%:R ;;
  Ok (fe, err).

(** *** [minimization_step] *)

(** [for i in range(nq): f(arr[i, :, :])], in place. *)
Definition each_q (nq : nat) (f : block -> block) (arr : seq block)
  : outcome (seq block) :=
  if (nq <= size arr)%N then Ok ([seq f b | b <- take nq arr] ++ drop nq arr)
  else Raise IndexError.

(** [for iq in range(len(self.dyn.q_tot)): self.dyn.dynmats[iq] = src[iq, :, :]],
    with [len(q_tot) = len(dynmats) = nq]. *)
Definition store_blocks (nq : nat) (src : seq block) : outcome (seq block) :=
  if (nq <= size src)%N then Ok (take nq src) else Raise IndexError.

(** The structure gradient up to the symmetrization: the average forces
    from the ensemble, the preconditioning, the symmetries. *)
Definition structure_gradient (self : SSCHA_Minimizer)
  : outcome (positions * positions) :=
  let cfg := config self in
  let e := ensemble self in
  let st := structure (dyn self) in
  let: (struct_grad, struct_grad_err) := get_average_forces ens e in
  let struct_grad_reshaped := - mxvec struct_grad in
  struct_grad <-
    (if precond_wyck cfg then
       struct_precond <- GetStructPrecond ph (current_dyn ens e) ;;
       (* struct_precond.dot(struct_grad_reshaped), as a row vector *)
       let struct_grad_precond := struct_grad_reshaped *m struct_precond^T in
       Ok (vec_mx struct_grad_precond)
     else Ok struct_grad) ;;
  Ok (if ~~ neglect_symmetries cfg then
        (SymmetrizeVector sym st struct_grad, SymmetrizeVector sym st struct_grad_err)
      else (struct_grad, struct_grad_err)).

(** [custom_function_gradient(dyn_grad, struct_grad)] changes its two
    arguments in place. *)
Definition gradient_hook : Type :=
  option (seq block * positions -> seq block * positions).

(** [np.real(np.einsum("abc, acb", g, g))] *)
Definition gradient_metric (g : seq block) : C :=
  'Re (\sum_(g_a <- g) \sum_b \sum_c g_a b c * g_a c b).

Definition minimization_step (self : SSCHA_Minimizer)
    (custom_function_gradient : gradient_hook) : outcome SSCHA_Minimizer :=
  let cfg := config self in
  let e := ensemble self in
  let st := structure (dyn self) in
  let nq := size (dynmats (dyn self)) in
  let: (dyn_grad, err) := get_preconditioned_gradient ens e (precond_dyn cfg) in
  ' (dyn_grad, err) <-
    (if ~~ neglect_symmetries cfg then
       Ok (SymmetrizeFCQ sym (dyn self) dyn_grad "custom",
           SymmetrizeFCQ sym (dyn self) err "crystal")
     else
       dyn_grad <- each_q nq (fun b => ImposeSumRule sym st b "custom") dyn_grad ;;
       err <- each_q nq (fun b => ImposeSumRule sym st b "custom") err ;;
       Ok (dyn_grad, err)) ;;
  ' (dyn_grad, self) <-
    (if minim_struct cfg then
       ' (struct_grad, struct_grad_err) <- structure_gradient self ;;
       let: (dyn_grad, struct_grad) :=
         if custom_function_gradient is Some f then f (dyn_grad, struct_grad)
         else (dyn_grad, struct_grad) in
       gw <- fsqrt (\sum_i \sum_j struct_grad i j ^+ 2) ;;
       gw_err2 <- fdiv (\sum_i \sum_j struct_grad_err i j * struct_grad_err i j)
                       (QE_nsymq sym st (~~ neglect_symmetries cfg))%:R ;;
       gw_err <- fsqrt gw_err2 ;;
       let self := set_history self (append_gw (history self) gw gw_err) in
       let coords' := coords st - min_step_struc self *: struct_grad in
       Ok (dyn_grad, set_dyn self (set_coords (dyn self) coords'))
     else
       (* np.zeros(N_atoms, 3): the second argument is read as a dtype *)
       if custom_function_gradient is Some _ then Raise TypeError
       else Ok (dyn_grad, set_history self (append_gw (history self) 0 0))) ;;
  let self :=
    set_history self
      (append_gc (history self) (gradient_metric dyn_grad) (gradient_metric err)) in
  new_dyn <- PerformRootStep (eigh np) (dynmats (dyn self)) dyn_grad
               (min_step_dyn cfg) (root_representation cfg)
               (minimization_algorithm cfg) ;;
  new_dynmats <- store_blocks nq new_dyn ;;
  let self := set_dyn self (set_dynmats (dyn self) new_dynmats) in
  let self := update self in
  Ok (set_prev_grad self dyn_grad).

(** *** [check_imaginary_frequencies] *)

(** [w[trans_mask]] with [trans_mask = ~get_translations(...)]. *)
Definition nontranslational (modes : seq (C * bool)) : seq C :=
  [seq m.1 | m <- modes & ~~ m.2].

(** The frequency-association report is printed and not returned, but
    it indexes the reference modes [pold[:, total_mask]] and [wold[i]]
    by the current ones and contracts [pols[:, i]] with [pold]. *)
Definition check_imaginary_frequencies (self : SSCHA_Minimizer) : outcome bool :=
  let e := ensemble self in
  let modes := supercell_modes ph (dyn self) (supercell ens e) in
  let w := nontranslational modes in
  if w is w0 :: _ then
    if w0 < 0 then
      let modes0 := supercell_modes ph (dyn_0 ens e) (supercell ens e) in
      let wold := nontranslational modes0 in
      if (size wold < size w)%N then Raise IndexError
      else if size modes != size modes0 then Raise ValueError
      else Ok true
    else Ok false
  else Raise IndexError.

(** *** [check_stop] *)

(** [total_cond], the convergence test of [check_stop]. *)
Definition total_cond (self : SSCHA_Minimizer) : outcome bool :=
  let h := history self in
  let cfg := config self in
  last_gc <- last_item (__gc__ h) ;;
  last_gc_err <- last_item (__gc_err__ h) ;;
  last_gw <- last_item (__gw__ h) ;;
  last_gw_err <- last_item (__gw_err__ h) ;;
  let gc_cond := last_gc < last_gc_err * meaningful_factor cfg in
  let gw_cond := last_gw < last_gw_err * meaningful_factor cfg in
  if gradi_op cfg == "gc"%string then Ok gc_cond
  else if gradi_op cfg == "gw"%string then Ok gw_cond
  else if gradi_op cfg == "all"%string then Ok (gc_cond && gw_cond)
  else Raise ValueError.

(** [check_stop] returns the flag and leaves [__converged__] assigned. *)
Definition check_stop (self : SSCHA_Minimizer) : outcome (SSCHA_Minimizer * bool) :=
  cond <- total_cond self ;;
  if cond then Ok (set_converged self true, true)
  else
    let e := ensemble self in
    let kl := get_effective_sample_size ens e in
    ratio <- fdiv kl (N ens e)%:R ;;
    if ratio < kong_liu_ratio (config self) then Ok (set_converged self false, true)
    else
      im_freq <- check_imaginary_frequencies self ;;
      Ok (self, im_freq).

(** *** [init] *)

(** The statements of [init] before the test on the root
    representation. *)
Definition init_prelude (self : SSCHA_Minimizer) : outcome SSCHA_Minimizer :=
  let nq := size (dynmats (dyn self)) in
  let fcq := SymmetrizeFCQ sym (dyn self) (dynmats (dyn self)) "custom" in
  new_dynmats <- store_blocks nq fcq ;;
  let self := set_dyn self (set_dynmats (dyn self) new_dynmats) in
  _ <- check_imaginary_frequencies self ;;
  let self := set_converged (set_history self (empty_history C)) false in
  ' (fe, err) <- get_free_energy_per_cell self ;;
  let self :=
    set_history self
      (append_fe (history self) (fe - eq_energy (config self)) err) in
  let grad := (get_preconditioned_gradient ens (ensemble self) true).1 in
  Ok (set_prev_grad self grad).

Definition init (self : SSCHA_Minimizer) : outcome SSCHA_Minimizer :=
  self <- init_prelude self ;;
  let cfg := config self in
  if (root_representation cfg != "normal"%string) && precond_dyn cfg then
    Raise ValueError
  else
    let kl := get_effective_sample_size ens (ensemble self) in
    let self := set_history self (append_KL (history self) kl) in
    if ~~ precond_wyck cfg then
      best <- GetBestWykoffStep ph np (dyn self) ;;
      Ok (set_min_step_struc self (min_step_struc self * best))
    else Ok self.

(** *** [run] *)

(** [custom_function_pre(self)] and [custom_function_post(self)]. *)
Definition observer : Type := option (SSCHA_Minimizer -> SSCHA_Minimizer).

Definition call (f : observer) (self : SSCHA_Minimizer) : SSCHA_Minimizer :=
  if f is Some f then f self else self.

(** How one pass of the loop ended: the [break] on an imaginary
    frequency, the value of [check_stop], the test on [max_ka]. *)
Record exit_flags := {
  imaginary : bool;
  stopped : bool;
  maximum_reached : bool
}.

Definition running (fl : exit_flags) : bool :=
  ~~ (imaginary fl || stopped fl || maximum_reached fl).

(** One pass of the [while] loop: the minimizer after it, the local
    [old_dyn], and how the pass ended. *)
Definition loop_body (custom_function_pre custom_function_post : observer)
    (custom_function_gradient : gradient_hook) (self : SSCHA_Minimizer)
  : outcome (SSCHA_Minimizer * Phonons * exit_flags) :=
  let self := call custom_function_pre self in
  let old_dyn := dyn self in
  self <- minimization_step self custom_function_gradient ;;
  im_freq <- check_imaginary_frequencies self ;;
  if im_freq then
    Ok (self, old_dyn,
        {| imaginary := true; stopped := false; maximum_reached := false |})
  else
    ' (fe, err) <- get_free_energy_per_cell self ;;
    let fe := fe - eq_energy (config self) in
    let self := set_history self (append_fe (history self) ('Re fe) ('Re err)) in
    let kl := get_effective_sample_size ens (ensemble self) in
    let self := set_history self (append_KL (history self) kl) in
    ' (self, stop) <- check_stop self ;;
    let max_ka := max_ka (config self) in
    let maximum :=
      (max_ka < (size (__fe__ (history self)))%:Z) && (0 < max_ka) in
    let self := call custom_function_post self in
    Ok (self, old_dyn,
        {| imaginary := false; stopped := stop; maximum_reached := maximum |}).

(** What the [while] loop leaves behind: the minimizer, [old_dyn], the
    flags of the last pass, and the number of passes made. *)
Record loop_exit := {
  final : SSCHA_Minimizer;
  old_dyn : Phonons;
  flags : exit_flags;
  passes : nat
}.

(** The [while running] loop; [None] when [fuel] passes were not
    enough to leave it. *)
Fixpoint run_loop (fuel : nat) (pre post : observer) (gradient : gradient_hook)
    (self : SSCHA_Minimizer) (ka : nat) : option (outcome loop_exit) :=
  if fuel is fuel'.+1 then
    match loop_body pre post gradient self with
    | Ok (self', old, fl) =>
        if running fl then run_loop fuel' pre post gradient self' ka.+1
        else Some (Ok {| final := self'; old_dyn := old; flags := fl;
                         passes := ka.+1 |})
    | Raise e => Some (Raise e)
    | NonFinite => Some NonFinite
    end
  else None.

(** The statements after the loop. *)
Definition restore (x : loop_exit) : SSCHA_Minimizer :=
  let self := final x in
  if ~~ is_converged self then update (set_dyn self (old_dyn x)) else self.

Definition run (fuel : nat) (custom_function_pre custom_function_post : observer)
    (custom_function_gradient : gradient_hook) (self : SSCHA_Minimizer)
  : option (outcome SSCHA_Minimizer) :=
  let self := set_converged self false in
  omap (fun r => x <- r ;; Ok (restore x))
    (run_loop fuel custom_function_pre custom_function_post
       custom_function_gradient self 0).

End Minimizer.

(** ** The constructor *)

Section Constructor.

Variable C : numClosedFieldType.
Variable nat_ : nat.
Variable QGrid : Type.
Variable Ens : Type.

Local Notation SSCHA_Minimizer := (SSCHA_Minimizer C nat_ QGrid Ens).

Variable ens : EnsembleOps C nat_ QGrid Ens.

(** [SSCHA_Minimizer(ensemble, root_representation, kong_liu_ratio,
    meaningful_factor, minimization_algorithm, lambda_a)] for an
    ensemble that is not [None]: [dyn] is a copy of its [current_dyn].
    [prev_grad] is [None] until [init] assigns it, and nothing reads it
    before; the empty list stands for it. *)
Definition __init__ (ensemble : Ens) (root_representation : string)
    (kong_liu_ratio meaningful_factor : C) (minimization_algorithm : string)
    (lambda_a : C) : SSCHA_Minimizer :=
  {| config :=
       {| root_representation := root_representation;
          kong_liu_ratio := kong_liu_ratio;
          meaningful_factor := meaningful_factor;
          minimization_algorithm := minimization_algorithm;
          min_step_dyn := lambda_a;
          precond_wyck := true;
          precond_dyn := true;
          minim_struct := true;
          gradi_op := "gc";
          neglect_symmetries := false;
          eq_energy := 0;
          max_ka := -1 |};
     ensemble := ensemble;
     dyn := current_dyn ens ensemble;
     min_step_struc := 1;
     prev_grad := [::];
     __converged__ := false;
     history := empty_history C |}.

End Constructor.

(** * Part II: the vocabulary of the statements *)

(** The tags of the root representations. *)
Definition root_tags : seq string := [:: "sqrt"; "root2"; "root4"]%string.

Section PreconditionerTerms.
Variable C : numClosedFieldType.
Variable nat_ : nat.
Variable QGrid : Type.
Local Notation block := 'M[C]_(nat_ * 3).
Local Notation Phonons := (Phonons C nat_ QGrid).
Variable ph : PhononOps C nat_ QGrid.

(** The einsum as a product [A diag(d) A^T]. *)
Definition weighted_pols (msi : 'rV[C]_(nat_ * 3)) (pols : block) : block :=
  \matrix_(a, c) (msi 0 a * pols a c).

Definition kept_weights (wm2 : 'rV[C]_(nat_ * 3)) (kept : pred 'I_(nat_ * 3))
  : 'rV[C]_(nat_ * 3) := \row_c (if kept c then wm2 0 c else 0).

(** The hypotheses of the claim: frequencies are floats, masses are
    positive, and the zero-frequency modes are the three modes that
    [get_translations] flags. *)
Definition three_translations (current_dyn : Phonons) : Prop :=
  let: (w, pols) := DyagDinQ0 ph current_dyn in
  let mass := masses (structure current_dyn) in
  [/\ w \is a realmx,
      forall i, 0 < mass 0 i,
      forall c, get_translations ph pols mass c = (w 0 c == 0)
    & #|[pred c | w 0 c == 0]| = 3%N].

End PreconditionerTerms.

Section MinimizerTerms.
Variable C : numClosedFieldType.
Variable nat_ : nat.
Variable QGrid : Type.
Variable Ens : Type.
Local Notation SSCHA_Minimizer := (SSCHA_Minimizer C nat_ QGrid Ens).
Variable ens : EnsembleOps C nat_ QGrid Ens.
Variable sym : SymmetryOps C nat_ QGrid.
Variable ph : PhononOps C nat_ QGrid.
Variable np : NumpyOps C nat_.
Local Notation loop_body := (loop_body ens sym ph np).

(** The decision as the specification words it. *)
Definition convergence_decision (gradi_op : string)
    (gc gc_err gw gw_err meaningful_factor : C) : bool :=
  let gc_cond := gc < gc_err * meaningful_factor in
  let gw_cond := gw < gw_err * meaningful_factor in
  if gradi_op == "gc"%string then gc_cond
  else if gradi_op == "gw"%string then gw_cond
  else if gradi_op == "all"%string then gc_cond && gw_cond
  else false.

Definition gradi_ops : seq string := [:: "gc"; "gw"; "all"]%string.

(** The latest entries of the four gradient lists. *)
Definition latest (self : SSCHA_Minimizer) (gc gc_err gw gw_err : C) : Prop :=
  let h := history self in
  [/\ last_item (__gc__ h) = Ok gc, last_item (__gc_err__ h) = Ok gc_err,
      last_item (__gw__ h) = Ok gw & last_item (__gw_err__ h) = Ok gw_err].

(** A hook that leaves the options and the history lists alone. *)
Definition quiet (f : observer C nat_ QGrid Ens) : Prop :=
  forall self, config (call f self) = config self /\
               history (call f self) = history self.

(** The minimizer after [k] passes, whatever their flags. *)
Fixpoint after_passes (pre post : observer C nat_ QGrid Ens)
    (gradient : gradient_hook C nat_) (k : nat) (self : SSCHA_Minimizer)
  : outcome SSCHA_Minimizer :=
  if k is k'.+1 then
    r <- loop_body pre post gradient self ;;
    after_passes pre post gradient k' r.1.1
  else Ok self.

(** The pass number [k] (from 0) breaks on no imaginary frequency and
    [check_stop] returns [False] in it. *)
Definition only_maximum (pre post : observer C nat_ QGrid Ens)
    (gradient : gradient_hook C nat_) (self : SSCHA_Minimizer) (k : nat) : Prop :=
  exists last r,
    [/\ after_passes pre post gradient k self = Ok last,
        loop_body pre post gradient last = Ok r,
        ~~ imaginary r.2 & ~~ stopped r.2].

End MinimizerTerms.

(** ** The vocabulary of the further properties *)

Section RootStepTerms.
Variable C : numClosedFieldType.
Variable n : nat.
Local Notation block := 'M[C]_n.
Variable eigh : block -> 'rV[C]_n * block.

(** One q point of the root step: the conversion, the step, the
    inversion. *)
Definition root_block (root4 : bool) (step_size : C) (iq : nat) (D G : block)
  : option block :=
  omap (root_inversion root4)
    (omap (fun dg : block * block => dg.1 - step_size *: dg.2)
       (root_conversion eigh root4 iq D G)).

(** The square root the conversion builds. *)
Definition root_of (D : block) : block :=
  einsum_a_ba_ca (map_mx sqrtC (eigh D).1) (eigh D).2.

End RootStepTerms.

Section HookTerms.
Variable C : numClosedFieldType.
Variable nat_ : nat.
Variable QGrid : Type.
Variable Ens : Type.

(** A hook that leaves the convergence flag alone. *)
Definition keeps_converged (f : observer C nat_ QGrid Ens) : Prop :=
  forall self, __converged__ (call f self) = __converged__ self.

End HookTerms.

(** * Part III: concrete inputs *)

(** ** Blocks and diagonalisations over the algebraic numbers *)

(** A stand-in for [eigh] that is exact on diagonal matrices. *)
Definition eigh_diagonal (C : numClosedFieldType) (n : nat) (D : 'M[C]_n)
  : 'rV[C]_n * 'M[C]_n := (\row_a D a a, 1%:M).

(** Two q points: the zone centre is the identity, the other block has
    the eigenvalue -1. *)
Definition unstable_off_centre : seq 'M[algC]_3 := [:: 1%:M; (-1)%:M].

(** A Hermitian block with complex entries, eigenvalues 25, 25, 400. *)
Definition mx3 (rows : seq (seq algC)) : 'M[algC]_3 :=
  \matrix_(i, j) nth 0 (nth [::] rows i) j.

Definition complex_block : 'M[algC]_3 :=
  mx3 [:: [:: 265%:R; 180%:R * 'i; 0];
          [:: - (180%:R * 'i); 160%:R; 0];
          [:: 0; 0; 25%:R]].

Definition complex_block_eigvals : 'rV[algC]_3 :=
  \row_a nth 0 [:: 25%:R; 25%:R; 400%:R] a.

Definition complex_block_eigvects : 'M[algC]_3 :=
  mx3 [:: [:: 3%:R / 5%:R; 0; 4%:R * 'i / 5%:R];
          [:: 4%:R * 'i / 5%:R; 0; 3%:R / 5%:R];
          [:: 0; 1; 0]].

Ltac ord3 i := case: i => [[|[|[|?]]] ?] //.

Ltac entries :=
  rewrite !mxE ?big_ord_recl ?big_ord0 /= ?mxE /=;
  rewrite ?(rmorphM, rmorphN, rmorphD, rmorph_nat, fmorphV, rmorph0, rmorph1) /=
          ?conjCi ?mulr1n ?mulr0n.

Definition eigh_complex (D : 'M[algC]_3) : 'rV[algC]_3 * 'M[algC]_3 :=
  if D == complex_block then (complex_block_eigvals, complex_block_eigvects)
  else eigh_diagonal D.

Definition complex_off_centre : seq 'M[algC]_3 := [:: 25%:R%:M; complex_block].

(** ** A two-atom crystal with one q point, for the examples *)

Definition ToyPhonons : Type := Phonons algC 2 unit.

(** The ensemble is represented by the matrix its weights were last
    computed for; its gradient at the one q point is [g] times the
    identity, [kl] is its effective sample size. *)
Definition toy_ensemble (g kl : algC) : EnsembleOps algC 2 unit ToyPhonons :=
  {| get_preconditioned_gradient := fun _ _ => ([:: g%:M], [:: 0]);
     get_average_forces := fun _ => (const_mx 1, 0);
     get_free_energy := fun _ => (0, 0);
     get_effective_sample_size := fun _ => kl;
     update_weights := fun _ d _ => d;
     N := fun _ => 1%N;
     current_T := fun _ => 0;
     supercell := fun _ => [:: 1; 1; 1]%N;
     current_dyn := fun e => e;
     dyn_0 := fun e => e |}.

Definition toy_symmetry : SymmetryOps algC 2 unit :=
  {| SymmetrizeFCQ := fun _ fcq _ => fcq;
     ImposeSumRule := fun _ b _ => b;
     SymmetrizeVector := fun _ v => v;
     QE_nsymq := fun _ _ => 1%N |}.

(** Three translations at zero frequency, three modes at frequency 1. *)
Definition toy_frequencies : 'rV[algC]_(2 * 3) :=
  \row_c (if (c < 3)%N then 0 else 1).

(** The lowest frequency of the supercell is read off the first entry
    of the matrix. *)
Definition toy_lowest (d : ToyPhonons) : algC :=
  (head 1%:M (dynmats d)) ord0 ord0.

Definition toy_phonons : PhononOps algC 2 unit :=
  {| DyagDinQ0 := fun _ => (toy_frequencies, 1%:M);
     get_translations := fun _ _ c => (c < 3)%N;
     supercell_modes := fun d _ =>
       [:: (0, true); (0, true); (0, true);
           (toy_lowest d, false); (toy_lowest d, false); (toy_lowest d, false)];
     BOHR_TO_ANGSTROM := 1 |}.

Definition toy_numpy : NumpyOps algC 2 :=
  {| eigh := @eigh_diagonal algC (2 * 3);
     eigvals := fun D => \row_a D a a |}.

Definition toy_config (root : string) (precond_wyck precond_dyn minim_struct : bool)
    (max_ka : int) : Configuration algC :=
  {| root_representation := root;
     kong_liu_ratio := 2%:R^-1;
     meaningful_factor := 10%:R^-1;
     minimization_algorithm := "sdes";
     min_step_dyn := 1;
     precond_wyck := precond_wyck;
     precond_dyn := precond_dyn;
     minim_struct := minim_struct;
     gradi_op := "gc";
     neglect_symmetries := true;
     eq_energy := 0;
     max_ka := max_ka |}.

Definition toy_dyn (x : algC) : ToyPhonons :=
  {| structure := {| coords := 0; masses := const_mx 1 |};
     dynmats := [:: x%:M];
     qgrid := tt |}.

(** The minimizer and its ensemble at the matrix [x] times the
    identity. *)
Definition toy_minimizer (cfg : Configuration algC) (x : algC)
    (prev : seq 'M[algC]_(2 * 3)) (h : MinimizationHistory algC)
  : SSCHA_Minimizer algC 2 unit ToyPhonons :=
  {| config := cfg; ensemble := toy_dyn x; dyn := toy_dyn x;
     min_step_struc := 1; prev_grad := prev;
     __converged__ := false; history := h |}.

(** The lists after a step of the toy crystal, without structure
    minimization. *)
Definition toy_stepped_history (g : algC) (h : MinimizationHistory algC)
  : MinimizationHistory algC :=
  append_gc (append_gw h 0 0)
    (gradient_metric [:: (g%:M : 'M[algC]_(2 * 3))])
    (gradient_metric [:: (0 : 'M[algC]_(2 * 3))]).

(** The lists after a pass of the loop. *)
Definition toy_pass_history (g kl : algC) (h : MinimizationHistory algC)
  : MinimizationHistory algC :=
  append_KL (append_fe (toy_stepped_history g h) ('Re (0 - 0)) ('Re 0)) kl.

(** The lists [init] leaves behind. *)
Definition toy_init_history (kl : algC) : MinimizationHistory algC :=
  append_KL (append_fe (empty_history algC) (0 - 0) 0) kl.

(** [gradi_op = "all"] with a converged matrix gradient (0 < 20 / 10)
    and a structure gradient that is not (1 < 0 / 10 fails). *)
Definition toy_config_all : Configuration algC :=
  {| root_representation := "normal";
     kong_liu_ratio := 2%:R^-1;
     meaningful_factor := 10%:R^-1;
     minimization_algorithm := "sdes";
     min_step_dyn := 1;
     precond_wyck := true;
     precond_dyn := true;
     minim_struct := true;
     gradi_op := "all";
     neglect_symmetries := true;
     eq_energy := 0;
     max_ka := -1 |}.

Definition only_gc_history : MinimizationHistory algC :=
  {| __fe__ := [:: 0; 0]; __fe_err__ := [:: 0; 0];
     __gc__ := [:: 0]; __gc_err__ := [:: 20%:R];
     __gw__ := [:: 1]; __gw_err__ := [:: 0];
     __KL__ := [:: 1; 1] |}.

(** An ensemble with a zero gradient and an error of one on every
    diagonal entry: the first pass meets the convergence test. *)
Definition toy_noisy_ensemble : EnsembleOps algC 2 unit ToyPhonons :=
  {| get_preconditioned_gradient := fun _ _ => ([:: 0], [:: 1%:M]);
     get_average_forces := fun _ => (const_mx 1, 0);
     get_free_energy := fun _ => (0, 0);
     get_effective_sample_size := fun _ => 1;
     update_weights := fun _ d _ => d;
     N := fun _ => 1%N;
     current_T := fun _ => 0;
     supercell := fun _ => [:: 1; 1; 1]%N;
     current_dyn := fun e => e;
     dyn_0 := fun e => e |}.

(** The lists after a pass with that ensemble. *)
Definition toy_noisy_history (h : MinimizationHistory algC)
  : MinimizationHistory algC :=
  append_KL
    (append_fe
       (append_gc (append_gw h 0 0)
          (gradient_metric [:: (0 : 'M[algC]_(2 * 3))])
          (gradient_metric [:: (1%:M : 'M[algC]_(2 * 3))]))
       ('Re (0 - 0)) ('Re 0)) 1.

(** * Part IV: theorems *)

(** ** The root step *)

Section RootStepFacts.
Variable C : numClosedFieldType.
Variable n : nat.
Local Notation block := 'M[C]_n.
Variable eigh : block -> 'rV[C]_n * block.

Lemma all_finite_Some (T : Type) (s : seq T) : all_finite [seq Some x | x <- s] = Ok s.
Proof.
rewrite /all_finite.
have -> : all isSome [seq Some x | x <- s] by elim: s.
by congr Ok; elim: s => //= x s ->.
Qed.

Lemma all_finite_not_raise (T : Type) (s : seq (option T)) e : all_finite s <> Raise e.
Proof. by rewrite /all_finite; case: ifP. Qed.

(** C8: [PerformRootStep] raises its [ValueError] exactly when the
    representation is outside normal, sqrt, root2, root4, or the two
    arrays have different numbers of q points, or the algorithm is not
    sdes; every other call returns a matrix or a nan, never another
    algorithm's step. *)
Theorem PerformRootStep_raises dyn_q grad_q step_size repr alg :
  PerformRootStep eigh dyn_q grad_q step_size repr alg = Raise ValueError <->
  [\/ repr \notin ALLOWED_REPRESENTATION, size dyn_q != size grad_q
    | alg != "sdes"%string].
Proof.
rewrite /PerformRootStep.
case: ifP => [_|/negbFE Hrep]; first by split=> // _; constructor 1.
case: ifP => [_|/negbFE Hsz]; first by split=> // _; constructor 2.
case: ifP => [_|/negbT Halg]; last by split=> // _; constructor 3.
split=> [/all_finite_not_raise //|[]]; by rewrite ?Hrep ?Hsz.
Qed.

(** C2: with representation normal and algorithm sdes, for arrays with
    the same number of q points and every step size, the result is
    [dyn_q - step_size * grad_q] at every q point; [eigh] is not used. *)
Theorem PerformRootStep_normal dyn_q grad_q step_size :
  size dyn_q = size grad_q ->
  PerformRootStep eigh dyn_q grad_q step_size "normal" "sdes" =
  Ok [seq dg.1 - step_size *: dg.2 | dg <- zip dyn_q grad_q].
Proof.
move=> Hsz; rewrite /PerformRootStep /= Hsz eqxx /=.
rewrite -map_comp -[RHS]all_finite_Some; congr all_finite.
rewrite -map_comp.
apply: (@eq_from_nth _ None); first by rewrite !size_map size_iota size_zip Hsz minnn.
move=> i; rewrite size_map size_iota => Hi.
rewrite (nth_map 0%N) ?size_iota // nth_iota // add0n /=.
rewrite (nth_map (0, 0)) ?size_zip ?Hsz ?minnn // nth_zip //=.
Qed.

(** Matrix form of the einsum. *)
Lemma einsum_a_ba_caE (x : 'rV[C]_n) (V : block) :
  einsum_a_ba_ca x V = (map_mx conjC V) *m diag_mx x *m V^T.
Proof.
apply/matrixP => b c; rewrite -mulmxA mul_diag_mx !mxE.
apply: eq_bigr => a _; rewrite !mxE.
by rewrite mulrA [x 0 a * _]mulrC.
Qed.

Lemma unitary_trC (V : block) : V ^t* *m V = 1%:M -> V^T *m (map_mx conjC V) = 1%:M.
Proof.
move=> H; have := congr1 trmx H.
by rewrite trmx_mul trmx1 map_trmx trmxK.
Qed.

Lemma einsum_mul (x y : 'rV[C]_n) (V : block) :
  V ^t* *m V = 1%:M ->
  einsum_a_ba_ca x V *m einsum_a_ba_ca y V =
  einsum_a_ba_ca (\row_a (x 0 a * y 0 a)) V.
Proof.
move=> HV; rewrite !einsum_a_ba_caE.
rewrite !mulmxA -[_ *m V^T *m _]mulmxA (unitary_trC HV) mulmx1.
congr (_ *m _); rewrite -!mulmxA; congr (_ *m _).
by rewrite mulmx_diag.
Qed.

Lemma einsum_conj (D : block) (w : 'rV[C]_n) (V : block) :
  w \is a realmx -> D = V *m diag_mx w *m V ^t* ->
  einsum_a_ba_ca w V = map_mx conjC D.
Proof.
move=> Hw ->; rewrite einsum_a_ba_caE !map_mxM /= map_diag_mx (realmxC Hw).
by congr (_ *m _); apply/matrixP => i j; rewrite !mxE conjCK.
Qed.

Lemma np_sqrt_nonneg (w : 'rV[C]_n) :
  (forall a, 0 <= w 0 a) -> np_sqrt w = Some (map_mx sqrtC w).
Proof.
move=> Hw; rewrite /np_sqrt; case: forallP => // -[] a.
by rewrite (le_gtF (Hw a)).
Qed.

Lemma regularize_nonneg (w : 'rV[C]_n) :
  (forall a, 0 <= w 0 a) -> regularize w = w.
Proof.
by move=> Hw; apply/rowP => a; rewrite !mxE (le_gtF (Hw a)).
Qed.

Lemma einsum_sqrt_sq (w : 'rV[C]_n) (V : block) :
  V ^t* *m V = 1%:M ->
  einsum_a_ba_ca (map_mx sqrtC w) V *m einsum_a_ba_ca (map_mx sqrtC w) V =
  einsum_a_ba_ca w V.
Proof.
move=> HV; rewrite einsum_mul //; congr einsum_a_ba_ca.
by apply/rowP => a; rewrite !mxE -expr2 sqrtCK.
Qed.

Lemma root_block_step0 root4 iq (D G : block) :
  eigh_spec D (eigh D) -> (forall a, 0 <= (eigh D).1 0 a) ->
  omap (root_inversion root4)
    (omap (fun dg : block * block => dg.1 - 0 *: dg.2)
       (root_conversion eigh root4 iq D G)) = Some (map_mx conjC D).
Proof.
rewrite /root_conversion; case: (eigh D) => w V [/= Hw HV HD] Hpos.
have -> : (if iq == 0%N then regularize w else w) = w.
  by case: ifP => // _; exact: regularize_nonneg.
rewrite np_sqrt_nonneg //.
case: root4; rewrite /= scale0r subr0 /root_inversion ?einsum_sqrt_sq //;
  by rewrite (einsum_conj Hw HD).
Qed.

Lemma PerformRootStep_step0 dyn_q grad_q repr :
  repr \in root_tags -> size dyn_q = size grad_q ->
  (forall D, D \in dyn_q ->
     eigh_spec D (eigh D) /\ forall a, 0 <= (eigh D).1 0 a) ->
  PerformRootStep eigh dyn_q grad_q 0 repr "sdes" =
  Ok [seq map_mx conjC D | D <- dyn_q].
Proof.
move=> Hrep Hsz Hdyn.
have Hconv root4 :
  [seq omap (root_inversion root4) b
  | b <- [seq omap (fun dg : block * block => dg.1 - 0 *: dg.2) c
         | c <- mkseq (fun iq => root_conversion eigh root4 iq
                                   (nth 0 dyn_q iq) (nth 0 grad_q iq))
                  (size dyn_q)]] =
  [seq Some x | x <- [seq map_mx conjC D | D <- dyn_q]].
  apply: (@eq_from_nth _ None); first by rewrite !size_map size_iota.
  move=> i; rewrite !size_map size_iota => Hi.
  rewrite (nth_map None) ?size_map ?size_iota //.
  rewrite (nth_map None) ?size_map ?size_iota //.
  rewrite nth_mkseq // (nth_map 0) ?size_map // (nth_map 0) //.
  by apply: root_block_step0; have [] := Hdyn _ (mem_nth 0 Hi).
move: Hrep; rewrite !inE => /or3P [] /eqP ->;
  by rewrite /PerformRootStep /= Hsz eqxx /= -Hsz Hconv all_finite_Some.
Qed.

(** The numbers [eigh] returns are eigenvalues of its argument. *)
Lemma eigh_eigenvalue (D : block) a :
  eigh_spec D (eigh D) -> eigenvalue D ((eigh D).1 0 a).
Proof.
case: (eigh D) => w V [/= _ HV HD].
apply/eigenvalueP; exists (row a (V ^t*)).
  rewrite -row_mul HD !mulmxA HV mul1mx mul_diag_mx.
  by apply/rowP => j; rewrite !mxE.
apply/eqP => H0.
have := congr1 (fun v => v *m V) H0.
rewrite -row_mul HV mul0mx => /rowP /(_ a).
by rewrite !mxE eqxx => /eqP; rewrite oner_eq0.
Qed.

(** C3 (amended): for representation sqrt, root2 or root4, algorithm
    sdes and step size 0, the result is the input itself, provided every
    block (at every q point, not only at the zone centre) is a real
    symmetric matrix with no negative eigenvalue and [eigh] diagonalises
    it. *)
Theorem PerformRootStep_zero_step dyn_q grad_q repr :
  repr \in root_tags -> size dyn_q = size grad_q ->
  (forall D, D \in dyn_q ->
     [/\ eigh_spec D (eigh D), D \is a realmx
       & forall lambda, eigenvalue D lambda -> 0 <= lambda]) ->
  PerformRootStep eigh dyn_q grad_q 0 repr "sdes" = Ok dyn_q.
Proof.
move=> Hrep Hsz Hdyn.
have Hpos D : D \in dyn_q ->
    eigh_spec D (eigh D) /\ forall a, 0 <= (eigh D).1 0 a.
  move=> /Hdyn [Hspec _ Hpos]; split=> // a.
  exact/Hpos/eigh_eigenvalue.
rewrite (PerformRootStep_step0 Hrep Hsz Hpos).
congr Ok; rewrite -[RHS]map_id; apply/eq_in_map => D /Hdyn [_ HD _].
exact: realmxC.
Qed.

(** and every eigenvalue of the argument is among them. *)
Lemma eigenvalue_eigh (D : block) lambda :
  eigh_spec D (eigh D) -> eigenvalue D lambda ->
  exists a, lambda = (eigh D).1 0 a.
Proof.
case: (eigh D) => w V [/= _ HV HD] /eigenvalueP [v Hv Hv0].
have HVV : V *m V ^t* = 1%:M by apply: mulmx1C.
have [u Hu0 Hu] : exists2 u : 'rV[C]_n, u != 0 & u *m diag_mx w = lambda *: u.
  exists (v *m V).
    apply: contra Hv0 => /eqP Hu.
    by rewrite -[v]mulmx1 -HVV mulmxA Hu mul0mx.
  by rewrite scalemxAl -Hv [in RHS]HD -!mulmxA HV mulmx1.
have [a Ha] : exists a, u 0 a != 0.
  case: (boolP [forall a, u 0 a == 0]) => [/forallP H|].
    by case/negP: Hu0; apply/eqP/rowP => a; rewrite (eqP (H a)) mxE.
  by case/forallPn => a Ha; exists a.
exists a; have /rowP /(_ a) := Hu.
rewrite mul_mx_diag !mxE => /eqP.
by rewrite mulrC (inj_eq (mulIf Ha)) => /eqP.
Qed.
End RootStepFacts.

(** *** The root step on concrete blocks *)

Lemma trmxC_1 (C : numClosedFieldType) n : (1%:M : 'M[C]_n) ^t* = 1%:M.
Proof. by apply/matrixP => i j; rewrite !mxE rmorph_nat eq_sym. Qed.

Lemma eigh_diagonal_spec (C : numClosedFieldType) n (x : C) :
  x \is Num.real -> eigh_spec (x%:M : 'M[C]_n) (eigh_diagonal x%:M).
Proof.
move=> Hx; split; rewrite /= ?trmxC_1 ?mulmx1 ?mul1mx //.
- by apply/mxOverP => i j; rewrite !mxE eqxx.
- apply/matrixP => i j; rewrite !mxE.
  by case: eqP => // ->; rewrite eqxx.
Qed.

Lemma eigenvalue_scalar (C : numClosedFieldType) n (x lambda : C) :
  eigenvalue (x%:M : 'M[C]_n) lambda -> lambda = x.
Proof.
case/eigenvalueP => v; rewrite mul_mx_scalar => Hv Hv0.
apply/eqP; rewrite eq_sym -subr_eq0; apply/eqP.
have /eqP := Hv; rewrite -subr_eq0 -scalerBl scaler_eq0 (negbTE Hv0) orbF.
by move/eqP.
Qed.

Lemma hermsym_scalar (C : numClosedFieldType) n (x : C) :
  x \is Num.real -> (x%:M : 'M[C]_n) \is hermsymmx.
Proof.
move=> Hx; apply/is_hermitianmxP; rewrite expr0 scale1r.
apply/matrixP => i j; rewrite !mxE eq_sym.
by case: eqP => _; rewrite ?mulr1n ?mulr0n ?rmorph0 // (CrealP Hx).
Qed.

Lemma realmx_scalar (C : numClosedFieldType) n (x : C) :
  x \is Num.real -> (x%:M : 'M[C]_n) \is a realmx.
Proof.
move=> Hx; apply/mxOverP => i j; rewrite !mxE.
by case: eqP => _; rewrite ?mulr1n ?mulr0n // rpred0.
Qed.

Lemma PerformRootStep_normal_witness :
  PerformRootStep (@eigh_diagonal algC 3) [:: 2%:M; 1%:M] [:: 1%:M; 1%:M] 1
    "normal" "sdes"
  = Ok [:: 2%:M - 1 *: 1%:M; 1%:M - 1 *: 1%:M].
Proof.
exact: (@PerformRootStep_normal algC 3 (@eigh_diagonal algC 3)
          [:: 2%:M; 1%:M] [:: 1%:M; 1%:M] 1 (erefl _)).
Defined.

Lemma scalar_block_ok (x : algC) : 0 <= x ->
  [/\ eigh_spec (x%:M : 'M[algC]_3) (eigh_diagonal x%:M),
      (x%:M : 'M[algC]_3) \is a realmx
    & forall lambda, eigenvalue (x%:M : 'M[algC]_3) lambda -> 0 <= lambda].
Proof.
move=> Hx; have Hr : x \is Num.real by rewrite realE Hx.
split; [exact: eigh_diagonal_spec | exact: realmx_scalar |].
by move=> lambda /eigenvalue_scalar ->.
Qed.

Lemma PerformRootStep_zero_step_witness :
  PerformRootStep (@eigh_diagonal algC 3) [:: 4%:R%:M; 9%:R%:M] [:: 1%:M; 1%:M] 0
    "root4" "sdes" = Ok [:: 4%:R%:M; 9%:R%:M].
Proof.
apply: (@PerformRootStep_zero_step algC 3 (@eigh_diagonal algC 3)
          [:: 4%:R%:M; 9%:R%:M] [:: 1%:M; 1%:M] "root4"%string (erefl _) (erefl _)).
move=> D; rewrite !inE => /orP [] /eqP ->; apply: scalar_block_ok; exact: ler0n.
Defined.

Lemma PerformRootStep_nan_off_centre :
  [/\ all (fun D => D \is hermsymmx) unstable_off_centre,
      forall lambda, eigenvalue (head 0 unstable_off_centre) lambda -> 0 <= lambda,
      forall D, D \in unstable_off_centre -> eigh_spec D (eigh_diagonal D)
    & PerformRootStep (@eigh_diagonal algC 3) unstable_off_centre [:: 0; 0] 0
        "sqrt" "sdes" = NonFinite].
Proof.
split.
- by rewrite /= !hermsym_scalar // ?rpredN rpred1.
- by move=> lambda /eigenvalue_scalar ->; exact: ler01.
- move=> D; rewrite !inE => /orP [] /eqP ->; apply: eigh_diagonal_spec;
    by rewrite ?rpredN rpred1.
- rewrite /PerformRootStep /= /all_finite /= /root_conversion /=.
  have -> : np_sqrt (\row_a ((-1)%:M : 'M[algC]_3) a a) = None.
    rewrite /np_sqrt; case: forallP => // /(_ ord0).
    by rewrite !mxE eqxx mulr1n oppr_lt0 ltr01.
  by rewrite /= andbF.
Qed.

Lemma complex_block_eigh :
  eigh_spec complex_block (complex_block_eigvals, complex_block_eigvects).
Proof.
have Hi := sqrCi algC.
split=> /=.
- apply/mxOverP => i j; rewrite !mxE.
  by ord3 j => /=; rewrite ?rpred0 // realn.
- apply/matrixP => i j; ord3 i; ord3 j; entries; by field: Hi.
- apply/matrixP => i j; ord3 i; ord3 j; rewrite -mulmxA mul_diag_mx; entries; by field: Hi.
Qed.

Lemma complex_block_not_scalar : (25%:R%:M == complex_block) = false.
Proof.
apply/eqP => /matrixP /(_ ord0 ord0); rewrite !mxE /= mulr1n => /eqP.
by rewrite eqr_nat.
Qed.

Lemma complex_block_conj : map_mx conjC complex_block != complex_block.
Proof.
apply/eqP => /matrixP /(_ ord0 (lift ord0 ord0)); rewrite !mxE /=.
rewrite rmorphM rmorph_nat /= conjCi mulrN => /eqP.
by rewrite eq_sym -addr_eq0 -mulr2n mulrn_eq0 mulf_eq0 pnatr_eq0 /= (negbTE (neq0Ci _)).
Qed.

Lemma complex_off_centre_eigh D :
  D \in complex_off_centre ->
  eigh_spec D (eigh_complex D) /\ forall a, 0 <= (eigh_complex D).1 0 a.
Proof.
rewrite !inE /eigh_complex => /orP [] /eqP ->.
  rewrite complex_block_not_scalar; split; first exact/eigh_diagonal_spec/realn.
  by move=> a; rewrite !mxE eqxx mulr1n ler0n.
rewrite eqxx; split; first exact: complex_block_eigh.
by move=> a; rewrite !mxE; ord3 a => /=; rewrite ler0n.
Qed.

Lemma complex_block_hermitian : complex_block \is hermsymmx.
Proof.
apply/is_hermitianmxP; rewrite expr0 scale1r.
by apply/matrixP => i j; ord3 i; ord3 j; entries; ring.
Qed.

(** On a Hermitian block with an imaginary part, a step of size zero
    returns the conjugate of the block. *)
Lemma PerformRootStep_conjugates :
  [/\ all (fun D => D \is hermsymmx) complex_off_centre,
      forall D, D \in complex_off_centre ->
        eigh_spec D (eigh_complex D) /\
        forall lambda, eigenvalue D lambda -> 0 <= lambda,
      PerformRootStep eigh_complex complex_off_centre [:: 0; 0] 0 "sqrt" "sdes"
      = Ok [:: 25%:R%:M; map_mx conjC complex_block]
    & PerformRootStep eigh_complex complex_off_centre [:: 0; 0] 0 "sqrt" "sdes"
      <> Ok complex_off_centre].
Proof.
have Hstep :
  PerformRootStep eigh_complex complex_off_centre [:: 0; 0] 0 "sqrt" "sdes"
  = Ok [:: 25%:R%:M; map_mx conjC complex_block].
  rewrite (@PerformRootStep_step0 _ _ eigh_complex complex_off_centre [:: 0; 0]
             "sqrt"%string isT (erefl _) complex_off_centre_eigh) /=.
  by rewrite (realmxC (realmx_scalar _ (realn _ _))).
split=> //.
- by rewrite /= hermsym_scalar ?realn // complex_block_hermitian.
- move=> D HD; have [Hspec Hpos] := complex_off_centre_eigh HD; split=> //.
  by move=> lambda /(eigenvalue_eigh Hspec) [a ->].
- rewrite Hstep => -[] /eqP; exact/negP/complex_block_conj.
Qed.

(** ** The structure preconditioner *)

Section PreconditionerFacts.
Variable C : numClosedFieldType.
Variable nat_ : nat.
Variable QGrid : Type.
Local Notation block := 'M[C]_(nat_ * 3).
Local Notation Phonons := (Phonons C nat_ QGrid).
Variable ph : PhononOps C nat_ QGrid.
Local Notation three_translations := (three_translations ph).

Lemma einsum_precondE (msi wm2 : 'rV[C]_(nat_ * 3)) kept (pols : block) :
  einsum_precond msi wm2 kept pols =
  weighted_pols msi pols *m diag_mx (kept_weights wm2 kept)
    *m (weighted_pols msi pols)^T.
Proof.
apply/matrixP => a b; rewrite -mulmxA mul_diag_mx !mxE big_mkcond /=.
apply: eq_bigr => c _; rewrite !mxE.
by case: (kept c); rewrite ?mul0r ?mulr0 //; ring.
Qed.

Lemma einsum_precond_sym (msi wm2 : 'rV[C]_(nat_ * 3)) kept (pols : block) :
  (einsum_precond msi wm2 kept pols)^T = einsum_precond msi wm2 kept pols.
Proof.
by rewrite einsum_precondE !trmx_mul trmxK tr_diag_mx mulmxA.
Qed.

(** The quadratic form of [A diag(d) A^T] for real [A] and [d >= 0]. *)
Lemma quadratic_form_ge0 (A : block) (d v : 'rV[C]_(nat_ * 3)) :
  A \is a realmx -> (forall c, 0 <= d 0 c) ->
  0 <= (v *m (A *m diag_mx d *m A^T) *m v ^t*) 0 0.
Proof.
move=> HA Hd.
have HvA : (v *m A) ^t* = A^T *m v ^t*.
  rewrite trmx_mul map_mxM; congr (_ *m _).
  apply/matrixP => i j; by rewrite !mxE /= (CrealP (mxOverP HA _ _)).
rewrite !mulmxA -[_ *m A^T *m _]mulmxA -HvA.
rewrite mul_mx_diag !mxE; apply: sumr_ge0 => c _; rewrite !mxE.
by rewrite mulrAC mulr_ge0 // mul_conjC_ge0.
Qed.

Lemma eigenvalue_ge0 (P : block) lambda :
  (forall v : 'rV[C]_(nat_ * 3), 0 <= (v *m P *m v ^t*) 0 0) ->
  eigenvalue P lambda -> 0 <= lambda.
Proof.
move=> HP /eigenvalueP [v Hv Hv0].
have := HP v; rewrite Hv -scalemxAl mxE -dotmxE.
by rewrite pmulr_lge0 // (dnorm_gt0 (@dotmx C _)).
Qed.

Lemma spread_massesE (mass : 'rV[C]_nat_) a :
  exists i, spread_masses mass 0 a = mass 0 i.
Proof.
rewrite /spread_masses; case/mxvec_indexP: a => i j.
by exists i; rewrite mxvecE mxE.
Qed.

(** C9: for a matrix with exactly three zero-frequency modes, which are
    the modes [get_translations] flags, [GetStructPrecond] returns a
    matrix that is symmetric, real, and has no negative eigenvalue. *)
Theorem GetStructPrecond_symmetric_psd (current_dyn : Phonons) :
  three_translations current_dyn ->
  BOHR_TO_ANGSTROM ph \is Num.real ->
  exists P,
    [/\ GetStructPrecond ph current_dyn = Ok P,
        P^T = P,
        P \is a realmx
      & forall lambda, eigenvalue P lambda -> 0 <= lambda].
Proof.
rewrite /three_translations /GetStructPrecond.
case: (DyagDinQ0 ph current_dyn) => w pols [Hw Hm Htr H3] HB.
set mass := masses _ in Hm Htr *.
set msi := map_mx _ (spread_masses mass).
set wm2 := map_mx _ w.
set kept := [pred c | _].
set rpols := map_mx _ pols.
have Hfin : [forall a, 0 < spread_masses mass 0 a]
            && [forall c, kept c ==> (w 0 c != 0)].
  apply/andP; split; apply/forallP => a.
    by have [i ->] := spread_massesE mass a.
  by apply/implyP; rewrite /kept /= Htr.
rewrite Hfin andbF.
exists (BOHR_TO_ANGSTROM ph ^+ 2 *: einsum_precond msi wm2 kept rpols).
have HA : weighted_pols msi rpols \is a realmx.
  apply/mxOverP => a c; rewrite !mxE mul1r realM ?Creal_Re //.
  have [i ->] := spread_massesE mass a.
  by rewrite realV sqrtC_real // ltW.
have Hd c : 0 <= kept_weights wm2 kept 0 c.
  rewrite !mxE; case: ifP => // _; rewrite mul1r invr_ge0.
  by rewrite real_exprn_even_ge0 // (mxOverP Hw).
have HB2 : 0 <= BOHR_TO_ANGSTROM ph ^+ 2 by rewrite real_exprn_even_ge0.
split=> //.
- by rewrite linearZ /= einsum_precond_sym.
- apply: mxOverZ; first by rewrite realE HB2.
  rewrite einsum_precondE; apply: mxOverM; first apply: mxOverM => //.
    by apply: mxOver_diag; [exact: rpred0 | apply/mxOverP => i c; rewrite ord1 realE Hd].
  by apply/mxOverP => i j; rewrite mxE (mxOverP HA).
- move=> lambda; apply: eigenvalue_ge0 => v.
  rewrite -scalemxAr -scalemxAl mxE mulr_ge0 // einsum_precondE.
  exact: quadratic_form_ge0.
Qed.
End PreconditionerFacts.

(** ** The minimizer *)

Section MinimizerFacts.
Variable C : numClosedFieldType.
Variable nat_ : nat.
Variable QGrid : Type.
Variable Ens : Type.

Local Notation block := 'M[C]_(nat_ * 3).
Local Notation positions := 'M[C]_(nat_, 3).
Local Notation Phonons := (Phonons C nat_ QGrid).
Local Notation SSCHA_Minimizer := (SSCHA_Minimizer C nat_ QGrid Ens).

Variable ens : EnsembleOps C nat_ QGrid Ens.
Variable sym : SymmetryOps C nat_ QGrid.
Variable ph : PhononOps C nat_ QGrid.
Variable np : NumpyOps C nat_.

Local Notation check_stop := (check_stop ens ph).
Local Notation check_imaginary_frequencies := (check_imaginary_frequencies ens ph).
Local Notation minimization_step := (minimization_step ens sym ph np).
Local Notation loop_body := (loop_body ens sym ph np).
Local Notation run_loop := (run_loop ens sym ph np).
Local Notation run := (run ens sym ph np).
Local Notation init := (init ens sym ph np).
Local Notation init_prelude := (init_prelude ens sym ph).
Local Notation after_passes := (after_passes ens sym ph np).
Local Notation only_maximum := (only_maximum ens sym ph np).
Local Notation latest := (@latest C nat_ QGrid Ens).
Local Notation quiet := (@quiet C nat_ QGrid Ens).

Lemma total_condE self gc gc_err gw gw_err :
  latest self gc gc_err gw gw_err ->
  gradi_op (config self) \in gradi_ops ->
  total_cond self =
  Ok (convergence_decision (gradi_op (config self)) gc gc_err gw gw_err
        (meaningful_factor (config self))).
Proof.
case=> Hgc Hgce Hgw Hgwe; rewrite /total_cond Hgc Hgce Hgw Hgwe /=.
by rewrite /convergence_decision !inE => /or3P [] /eqP ->.
Qed.

(** C5: [check_stop] reports convergence exactly by the decision
    gc_cond, gw_cond or their conjunction that [gradi_op] selects, each
    being latest gradient < latest error * meaningful_factor; with
    [gradi_op = all] a state where only gc_cond holds is not converged. *)
Theorem check_stop_decision self gc gc_err gw gw_err :
  latest self gc gc_err gw gw_err ->
  gradi_op (config self) \in gradi_ops ->
  let mf := meaningful_factor (config self) in
  let decision :=
    convergence_decision (gradi_op (config self)) gc gc_err gw gw_err mf in
  [/\ decision -> check_stop self = Ok (set_converged self true, true),
      ~~ decision ->
        forall self' stop, check_stop self = Ok (self', stop) ->
        self' = set_converged self false \/ self' = self
    & gradi_op (config self) = "all"%string ->
      gc < gc_err * mf -> ~~ (gw < gw_err * mf) -> decision = false].
Proof.
move=> Hl Hop /=; split.
- by move=> Hd; rewrite /check_stop (total_condE Hl Hop) /= Hd.
- move=> /negbTE Hd self' stop; rewrite /check_stop (total_condE Hl Hop) /= Hd.
  case: (fdiv _ _) => //= ratio; case: ifP => _; first by case=> <- _; left.
  by case: (check_imaginary_frequencies self) => //= b [<- _]; right.
- by move=> Hall Hgc /negbTE Hgw; rewrite /convergence_decision Hall /= Hgc Hgw.
Qed.

(** *** What a pass leaves unchanged *)

Lemma check_stop_frame self self' stop :
  check_stop self = Ok (self', stop) ->
  [/\ config self' = config self, history self' = history self,
      dyn self' = dyn self & ensemble self' = ensemble self].
Proof.
rewrite /check_stop; case: (total_cond self) => //= -[]; first by case=> <- _.
case: (fdiv _ _) => //= ratio; case: ifP => _; first by case=> <- _.
by case: (check_imaginary_frequencies self) => //= b [<- _].
Qed.

Lemma minimization_step_frame self gradient self' :
  minimization_step self gradient = Ok self' ->
  [/\ config self' = config self,
      __fe__ (history self') = __fe__ (history self),
      __KL__ (history self') = __KL__ (history self)
    & __converged__ self' = __converged__ self].
Proof.
rewrite /minimization_step.
case: (get_preconditioned_gradient _ _ _) => dyn_grad err.
case: (if ~~ neglect_symmetries _ then _ else _) => //= -[dyn_grad' err'].
case: (minim_struct _); last first.
  case: gradient => [f|] //=.
  case: (PerformRootStep _ _ _ _ _ _) => //= new_dyn.
  by case: (store_blocks _ _) => //= new_dynmats [<-].
case: (structure_gradient _ _ _ _) => //= -[sg sge].
case: (if gradient is Some _ then _ else _) => dg' sg'.
case: (fsqrt _) => //= gw; case: (fdiv _ _) => //= gwe2.
case: (fsqrt _) => //= gwe.
case: (PerformRootStep _ _ _ _ _ _) => //= new_dyn.
by case: (store_blocks _ _) => //= new_dynmats [<-].
Qed.

Lemma quiet_None : quiet None.
Proof. by []. Qed.

(** A pass that does not break appends one free energy and evaluates
    the test on [max_ka] on the longer list. *)
Lemma loop_body_history pre post gradient self self' old fl :
  quiet pre -> quiet post ->
  loop_body pre post gradient self = Ok (self', old, fl) ->
  ~~ imaginary fl ->
  [/\ config self' = config self,
      size (__fe__ (history self')) = (size (__fe__ (history self))).+1
    & maximum_reached fl =
      (max_ka (config self) < (size (__fe__ (history self')))%:Z)
      && (0 < max_ka (config self))].
Proof.
move=> Hpre Hpost; rewrite /loop_body.
have [Hc0 Hh0] := Hpre self.
case Hstep: (minimization_step _ _) => [s1| |] //=.
have [Hc1 Hfe1 _ _] := minimization_step_frame Hstep.
case: (check_imaginary_frequencies s1) => //= -[]; first by case=> _ _ <-.
case: (get_free_energy_per_cell ens s1) => //= -[fe err].
case Hstop: (check_stop _) => [[s3 stop]| |] //=.
have [Hc3 Hh3 _ _] := check_stop_frame Hstop.
have [Hc4 Hh4] := Hpost s3.
case=> <- _ <- _ /=; rewrite Hc4 Hh4 Hc3 Hh3 /= Hc1 Hc0; split=> //.
by rewrite size_rcons Hfe1 Hh0.
Qed.

(** A pass keeps [old_dyn], the matrix the pass started from. *)
Lemma loop_body_old_dyn pre post gradient self self' old fl :
  loop_body pre post gradient self = Ok (self', old, fl) ->
  old = dyn (call pre self).
Proof.
rewrite /loop_body.
case: (minimization_step _ _) => [s1| |] //=.
case: (check_imaginary_frequencies s1) => //= -[]; first by case=> _ <- _.
case: (get_free_energy_per_cell ens s1) => //= -[fe err].
by case: (check_stop _) => [[s3 stop]| |] //= [_ <- _].
Qed.

(** The loop is left by the pass that clears [running]: [k] passes
    before it, then the pass that [x] records. *)
Lemma run_loopP fuel pre post gradient self ka x :
  run_loop fuel pre post gradient self ka = Some (Ok x) ->
  exists k last,
    [/\ after_passes pre post gradient k self = Ok last,
        loop_body pre post gradient last = Ok (final x, old_dyn x, flags x),
        ~~ running (flags x)
      & passes x = (ka + k).+1].
Proof.
elim: fuel self ka => //= fuel IH self ka.
case Hbody: (loop_body _ _ _ _) => [[[s' old] fl]| |] //.
case: ifP => [Hrun /IH [k [last [Hk Hlast Hfl Hp]]]|/negbT Hrun [<-]] /=.
  by exists k.+1, last; rewrite /= Hbody /= addnS -addSn.
by exists 0%N, self; rewrite addn0.
Qed.

(** C1: when [run] returns without the convergence flag, the matrix
    is the copy taken at the start of the last pass and the result is
    [update] of it: the weights are recomputed for that matrix; when it
    returns converged, the result is the final state of the loop. *)
Theorem run_restores_last_good fuel pre post gradient self result :
  run fuel pre post gradient self = Some (Ok result) ->
  exists k last x,
    [/\ after_passes pre post gradient k (set_converged self false) = Ok last,
        loop_body pre post gradient last = Ok (final x, old_dyn x, flags x)
        /\ old_dyn x = dyn (call pre last),
        ~~ __converged__ (final x) ->
          result = update ens (set_dyn (final x) (old_dyn x)) /\
          dyn result = dyn (call pre last) /\
          ensemble result =
            update_weights ens (ensemble (final x)) (dyn (call pre last))
              (current_T ens (ensemble (final x)))
      & __converged__ (final x) -> result = final x].
Proof.
rewrite /run; case Hloop: (run_loop _ _ _ _ _ _) => [[x| |]|] //= [<-].
have [k [last [Hk Hlast _ _]]] := run_loopP Hloop.
have Hold := loop_body_old_dyn Hlast.
exists k, last, x; split=> //; rewrite /restore /is_converged.
  by move=> /negbTE ->; rewrite /= Hold.
by move=> ->.
Qed.

(** *** Sampling and imaginary frequencies end the loop *)


(** *** The test on [max_ka] *)

Lemma only_maximum_next pre post gradient self r k :
  loop_body pre post gradient self = Ok r ->
  only_maximum pre post gradient self k.+1 ->
  only_maximum pre post gradient r.1.1 k.
Proof. by move=> Hr [last [r' []]]; rewrite /= Hr /= => *; exists last, r'. Qed.

Lemma only_maximum_first pre post gradient self :
  only_maximum pre post gradient self 0 ->
  exists s' old fl,
    [/\ loop_body pre post gradient self = Ok (s', old, fl),
        ~~ imaginary fl & ~~ stopped fl].
Proof.
by case=> last [[[s' old] fl]] [[<-] Hr Hi Hs]; exists s', old, fl.
Qed.

Lemma init_history start self :
  init start = Ok self -> size (__fe__ (history self)) = 1%N.
Proof.
rewrite /init; case Hpre: (init_prelude start) => [s1| |] //=.
have Hfe : size (__fe__ (history s1)) = 1%N.
  move: Hpre; rewrite /init_prelude.
  case: (store_blocks _ _) => //= new.
  case: (check_imaginary_frequencies _) => //= _.
  by case: (get_free_energy_per_cell _ _) => //= -[fe err] [<-].
case: ifP => // _; case: ifP => _; last by case=> <-.
by case: (GetBestWykoffStep _ _ _) => //= best [<-].
Qed.

Lemma run_loop_maximum pre post gradient (M : nat) j :
  quiet pre -> quiet post -> (0 < M)%N ->
  forall self ka fuel,
  max_ka (config self) = M%:Z ->
  (size (__fe__ (history self)) + j.+1 = M.+1)%N ->
  (forall k, (k < j.+1)%N -> only_maximum pre post gradient self k) ->
  (j < fuel)%N ->
  exists x,
    [/\ run_loop fuel pre post gradient self ka = Some (Ok x),
        passes x = (ka + j.+1)%N
      & flags x = {| imaginary := false; stopped := false;
                     maximum_reached := true |}].
Proof.
move=> Hpre Hpost HM; elim: j => [|j IH] self ka [|fuel] // Hmax Hsize Hother Hfuel.
  have [s' [old [fl [Hbody Him Hst]]]] := only_maximum_first (Hother 0%N isT).
  have [Hc Hfe Hfl] := loop_body_history Hpre Hpost Hbody Him.
  have Hflags : fl = {| imaginary := false; stopped := false;
                        maximum_reached := true |}.
    case: fl Him Hst Hfl {Hbody} => i s m /= /negbTE -> /negbTE -> ->.
    by rewrite Hmax Hfe -addn1 Hsize ltz_nat ltnSn (ltz_nat 0) HM.
  exists {| final := s'; old_dyn := old; flags := fl; passes := ka.+1 |}.
  by rewrite /= Hbody Hflags /= addn1.
have [s' [old [fl [Hbody Him Hst]]]] := only_maximum_first (Hother 0%N isT).
have [Hc Hfe Hfl] := loop_body_history Hpre Hpost Hbody Him.
have Hrun : running fl.
  have HMe : M = (size (__fe__ (history self)) + j.+1)%N.
    by move: Hsize; rewrite addnS => -[].
  rewrite /running (negbTE Him) (negbTE Hst) Hfl Hmax Hfe ltz_nat /=.
  by rewrite {1}HMe -[X in (_ < X)%N]addn1 ltn_add2l.
have Hmax' : max_ka (config s') = M%:Z by rewrite Hc.
have Hsize' : (size (__fe__ (history s')) + j.+1 = M.+1)%N.
  by rewrite Hfe addSnnS.
have Hother' k : (k < j.+1)%N -> only_maximum pre post gradient s' k.
  by move=> Hk; apply: (only_maximum_next Hbody (Hother k.+1 Hk)).
have [x [Hx Hp Hf]] := IH s' ka.+1 fuel Hmax' Hsize' Hother' Hfuel.
by exists x; rewrite /= Hbody Hrun Hx Hp addSnnS.
Qed.

Lemma run_loop_unbounded pre post gradient :
  quiet pre -> quiet post ->
  forall fuel self ka,
  max_ka (config self) < 0 ->
  (forall k, only_maximum pre post gradient self k) ->
  run_loop fuel pre post gradient self ka = None.
Proof.
move=> Hpre Hpost; elim=> [|fuel IH] self ka // Hneg Hother.
have [s' [old [fl [Hbody Him Hst]]]] := only_maximum_first (Hother 0%N).
have [Hc Hfe Hfl] := loop_body_history Hpre Hpost Hbody Him.
have Hrun : running fl.
  by rewrite /running (negbTE Him) (negbTE Hst) Hfl (lt_gtF Hneg) andbF.
rewrite /= Hbody Hrun; apply: IH; first by rewrite Hc.
by move=> k; apply: (only_maximum_next Hbody (Hother k.+1)).
Qed.

(** *** [init] and the root representation *)

Lemma init_prelude_config start self :
  init_prelude start = Ok self -> config self = config start.
Proof.
rewrite /init_prelude.
case: (store_blocks _ _) => //= new.
case: (check_imaginary_frequencies _) => //= _.
by case: (get_free_energy_per_cell _ _) => //= -[fe err] [<-].
Qed.

(** C10: with a root representation other than normal and [precond_dyn]
    enabled, [init] never returns a minimizer, and raises [ValueError]
    as soon as the steps before the test go through. *)
Theorem init_root_representation start :
  root_representation (config start) != "normal"%string ->
  precond_dyn (config start) ->
  (forall self, init start <> Ok self) /\
  (forall self, init_prelude start = Ok self -> init start = Raise ValueError).
Proof.
move=> Hroot Hprecond.
have Hraise self : init_prelude start = Ok self -> init start = Raise ValueError.
  by move=> Hpre; rewrite /init Hpre /= (init_prelude_config Hpre) Hroot Hprecond.
split=> // self; case Hpre: (init_prelude start) => [s1| |].
- by rewrite (Hraise _ Hpre).
- by rewrite /init Hpre.
- by rewrite /init Hpre.
Qed.

(** *** The sign of the structure gradient *)

(** C4: the structure gradient is the negated average force only when
    [precond_wyck] is enabled; when it is disabled the force is used
    as fetched, and the step moves the coordinates by
    [- min_step_struc * F]. *)
Theorem structure_gradient_sign self F F_err :
  get_average_forces ens (ensemble self) = (F, F_err) ->
  neglect_symmetries (config self) ->
  [/\ (* with the preconditioner the forces are negated *)
      precond_wyck (config self) ->
      forall P, GetStructPrecond ph (current_dyn ens (ensemble self)) = Ok P ->
      structure_gradient ens sym ph self
      = Ok (- vec_mx (mxvec F *m P^T), F_err),
      (* without it they are not *)
      ~~ precond_wyck (config self) ->
      structure_gradient ens sym ph self = Ok (F, F_err)
    & ~~ precond_wyck (config self) -> minim_struct (config self) ->
      forall self', minimization_step self None = Ok self' ->
      coords (structure (dyn self'))
      = coords (structure (dyn self)) - min_step_struc self *: F].
Proof.
move=> HF Hneg; split.
- move=> Hp P HP; rewrite /structure_gradient HF Hp HP /= Hneg /=.
  by rewrite mulNmx linearN.
- by move=> /negbTE Hp; rewrite /structure_gradient HF Hp /= Hneg.
- move=> /negbTE Hp Hms self'; rewrite /minimization_step.
  case: (get_preconditioned_gradient _ _ _) => dyn_grad err.
  case: (if ~~ neglect_symmetries _ then _ else _) => //= -[dyn_grad' err'].
  rewrite Hms /structure_gradient HF Hp /= Hneg /=.
  case: (fsqrt _) => //= gw; case: (fdiv _ _) => //= gwe2.
  case: (fsqrt _) => //= gwe.
  case: (PerformRootStep _ _ _ _ _ _) => //= new_dyn.
  by case: (store_blocks _ _) => //= new_dynmats [<-].
Qed.
End MinimizerFacts.

(** ** The two-atom crystal *)

Section ToyFacts.

Variables g kl : algC.

Local Notation tens := (toy_ensemble g kl).
Local Notation tmin :=
  (minimization_step tens toy_symmetry toy_phonons toy_numpy).
Local Notation tbody :=
  (loop_body tens toy_symmetry toy_phonons toy_numpy None None None).
Local Notation tinit := (init tens toy_symmetry toy_phonons toy_numpy).

Lemma toy_minimization_step pw pd M x prev h :
  tmin (toy_minimizer (toy_config "normal" pw pd false M) x prev h) None
  = Ok (toy_minimizer (toy_config "normal" pw pd false M) (x - g)
          [:: g%:M] (toy_stepped_history g h)).
Proof.
rewrite /minimization_step /=.
rewrite /PerformRootStep /= /all_finite /= /store_blocks /= /update /=.
by rewrite /toy_minimizer /toy_dyn /set_dynmats /= scale1r -raddfB.
Qed.

Lemma toy_lowestE x : toy_lowest (toy_dyn x) = x.
Proof. by rewrite /toy_lowest /= mxE eqxx. Qed.

Lemma toy_check_imaginary cfg x prev h :
  check_imaginary_frequencies tens toy_phonons (toy_minimizer cfg x prev h)
  = Ok (x < 0).
Proof.
by rewrite /check_imaginary_frequencies /= toy_lowestE; case: ifP.
Qed.

Lemma toy_free_energy cfg x prev h :
  get_free_energy_per_cell tens (toy_minimizer cfg x prev h) = Ok (0, 0).
Proof.
rewrite /get_free_energy_per_cell /= /fdiv !big_cons big_nil !muln1.
by rewrite oner_eq0 /= mul0r.
Qed.

Lemma toy_init pd M :
  tinit (toy_minimizer (toy_config "normal" true pd false M) 1 [::]
           (empty_history algC))
  = Ok (toy_minimizer (toy_config "normal" true pd false M) 1 [:: g%:M]
          (toy_init_history kl)).
Proof.
rewrite /init /init_prelude /store_blocks [size _]/= leqnn [bind _ _]/=.
rewrite (_ : set_dyn _ _ = toy_minimizer (toy_config "normal" true pd false M)
                             1 [::] (empty_history algC)) //.
rewrite toy_check_imaginary [bind _ _]/=.
rewrite (_ : set_converged _ _ =
             toy_minimizer (toy_config "normal" true pd false M)
               1 [::] (empty_history algC)) //.
by rewrite toy_free_energy.
Qed.

End ToyFacts.

Lemma last_item_rcons (C : numClosedFieldType) (s : seq C) x :
  last_item (rcons s x) = Ok x.
Proof. by case: s => //= y s; rewrite last_rcons. Qed.

Lemma gradient_metric0 (C : numClosedFieldType) n :
  gradient_metric [:: (0 : 'M[C]_(n * 3))] = 0.
Proof.
rewrite /gradient_metric big_seq1 big1 ?raddf0 // => b _.
by rewrite big1 // => c _; rewrite mxE mul0r.
Qed.

Lemma half_lt1 : (1 < 2%:R^-1 :> algC) = false.
Proof. by rewrite invf_gt1 ?ltr0n // ltrn1. Qed.

(** *** The crystal at rest: zero gradient, full sample *)

Section ToyAtRest.

Local Notation tens := (toy_ensemble 0 1).
Local Notation tbody :=
  (loop_body tens toy_symmetry toy_phonons toy_numpy None None None).

Lemma toy_total_cond pw pd M x prev h kl :
  total_cond (toy_minimizer (toy_config "normal" pw pd false M) x prev
                (toy_pass_history 0 kl h)) = Ok false.
Proof.
rewrite /total_cond /= !last_item_rcons /=.
by rewrite raddf0 gradient_metric0 mul0r ltxx.
Qed.

Lemma toy_check_stop pw pd M prev h :
  check_stop tens toy_phonons
    (toy_minimizer (toy_config "normal" pw pd false M) 1 prev
       (toy_pass_history 0 1 h))
  = Ok (toy_minimizer (toy_config "normal" pw pd false M) 1 prev
          (toy_pass_history 0 1 h), false).
Proof.
rewrite /check_stop toy_total_cond /= /fdiv oner_eq0 /= divr1 half_lt1.
by rewrite toy_check_imaginary /= ltr10.
Qed.

Lemma toy_loop_body pw pd M prev h :
  tbody (toy_minimizer (toy_config "normal" pw pd false M) 1 prev h)
  = Ok (toy_minimizer (toy_config "normal" pw pd false M) 1 [:: 0%:M]
          (toy_pass_history 0 1 h),
        toy_dyn 1,
        {| imaginary := false; stopped := false;
           maximum_reached :=
             (M < (size (__fe__ h)).+1%:Z) && (0 < M) |}).
Proof.
rewrite /loop_body /call toy_minimization_step [bind _ _]/= subr0.
rewrite toy_check_imaginary ltr10 [bind _ _]/= toy_free_energy [bind _ _]/=.
rewrite -/(toy_pass_history 0 1 h).
rewrite (_ : set_history _ _ =
             toy_minimizer (toy_config "normal" pw pd false M) 1 [:: 0%:M]
               (toy_pass_history 0 1 h)) //.
by rewrite toy_check_stop /= size_rcons.
Qed.

Lemma toy_after_passes pw pd M k prev h :
  exists prev' h',
    after_passes tens toy_symmetry toy_phonons toy_numpy None None None k
      (toy_minimizer (toy_config "normal" pw pd false M) 1 prev h)
    = Ok (toy_minimizer (toy_config "normal" pw pd false M) 1 prev' h').
Proof.
elim: k prev h => [|k IH] prev h; first by exists prev, h.
by rewrite /= toy_loop_body /=; exact: IH.
Qed.

Lemma toy_only_maximum pw pd M prev h k :
  only_maximum tens toy_symmetry toy_phonons toy_numpy None None None
    (toy_minimizer (toy_config "normal" pw pd false M) 1 prev h) k.
Proof.
have [prev' [h' Hk]] := toy_after_passes pw pd M k prev h.
by eexists; eexists; split; [exact: Hk | exact: toy_loop_body | |].
Qed.

End ToyAtRest.

Local Notation rest := (toy_ensemble 0 1).
Local Notation steep := (toy_ensemble 2%:R 1).
Local Notation trun e := (run e toy_symmetry toy_phonons toy_numpy).
Local Notation trun_loop e := (run_loop e toy_symmetry toy_phonons toy_numpy).
Local Notation tmin e := (minimization_step e toy_symmetry toy_phonons toy_numpy).

(** The gradient 2 takes the matrix 1 to -1: an imaginary frequency. *)

Lemma toy_steep_run pw pd M prev h :
  trun steep 1 None None None
    (toy_minimizer (toy_config "normal" pw pd false M) 1 prev h)
  = Some (Ok (toy_minimizer (toy_config "normal" pw pd false M) 1
                [:: 2%:R%:M] (toy_stepped_history 2%:R h))).
Proof.
rewrite /run /= /loop_body /call.
rewrite (_ : set_converged _ _ =
             toy_minimizer (toy_config "normal" pw pd false M) 1 prev h) //.
rewrite toy_minimization_step [bind _ _]/= toy_check_imaginary.
by rewrite subr_lt0 ltr1n.
Qed.

Lemma run_restores_last_good_witness :
  exists k last x,
    [/\ after_passes steep toy_symmetry toy_phonons toy_numpy None None None k
          (set_converged
             (toy_minimizer (toy_config "normal" true false false (-1)) 1 [::]
                (toy_init_history 1)) false) = Ok last,
        loop_body steep toy_symmetry toy_phonons toy_numpy None None None last
        = Ok (final x, old_dyn x, flags x)
        /\ old_dyn x = dyn (call None last),
        ~~ __converged__ (final x) ->
          toy_minimizer (toy_config "normal" true false false (-1)) 1
            [:: 2%:R%:M] (toy_stepped_history 2%:R (toy_init_history 1))
          = update steep (set_dyn (final x) (old_dyn x)) /\
          dyn (toy_minimizer (toy_config "normal" true false false (-1)) 1
                 [:: 2%:R%:M] (toy_stepped_history 2%:R (toy_init_history 1)))
          = dyn (call None last) /\
          ensemble
            (toy_minimizer (toy_config "normal" true false false (-1)) 1
               [:: 2%:R%:M] (toy_stepped_history 2%:R (toy_init_history 1)))
          = update_weights steep (ensemble (final x)) (dyn (call None last))
              (current_T steep (ensemble (final x)))
      & __converged__ (final x) ->
        toy_minimizer (toy_config "normal" true false false (-1)) 1
          [:: 2%:R%:M] (toy_stepped_history 2%:R (toy_init_history 1))
        = final x].
Proof.
exact: (run_restores_last_good
          (toy_steep_run true false (-1) [::] (toy_init_history 1))).
Defined.

Lemma check_stop_decision_witness :
  let self := toy_minimizer toy_config_all 1 [::] only_gc_history in
  let decision := convergence_decision "all" (0 : algC) 20%:R 1 0 10%:R^-1 in
  [/\ decision -> check_stop rest toy_phonons self = Ok (set_converged self true, true),
      ~~ decision ->
        forall self' stop, check_stop rest toy_phonons self = Ok (self', stop) ->
        self' = set_converged self false \/ self' = self
    & "all"%string = "all"%string ->
      0 < 20%:R * 10%:R^-1 :> algC -> ~~ (1 < 0 * 10%:R^-1 :> algC) ->
      decision = false].
Proof.
exact: (@check_stop_decision _ _ _ _ rest toy_phonons
          (toy_minimizer toy_config_all 1 [::] only_gc_history)
          0 20%:R 1 0 (And4 (erefl _) (erefl _) (erefl _) (erefl _)) isT).
Defined.




(** Structure minimization without the preconditioner: the forces are
    1 on every coordinate. *)
Lemma toy_structure_step pd M prev h :
  exists self',
    tmin rest (toy_minimizer (toy_config "normal" false pd true M) 1 prev h) None
    = Ok self'.
Proof.
rewrite /minimization_step /= /structure_gradient /= /fsqrt.
have -> : (\sum_i \sum_j (const_mx 1 : 'M[algC]_(2, 3)) i j ^+ 2 < 0) = false.
  apply/le_gtF/sumr_ge0 => i _; apply/sumr_ge0 => j _.
  by rewrite mxE expr1n ler01.
rewrite [bind _ _]/= /fdiv oner_eq0 [bind _ _]/=.
have -> : \sum_i \sum_j (0 : 'M[algC]_(2, 3)) i j * (0 : 'M[algC]_(2, 3)) i j = 0.
  by apply: big1 => i _; apply: big1 => j _; rewrite mxE mul0r.
rewrite mul0r ltxx [bind _ _]/=.
rewrite /PerformRootStep /= /all_finite /= /store_blocks /=.
by eexists.
Qed.

Lemma structure_gradient_sign_witness :
  let self := toy_minimizer (toy_config "normal" false true true 3) 1 [::]
                (toy_init_history 1) in
  structure_gradient rest toy_symmetry toy_phonons self = Ok (const_mx 1, 0) /\
  exists self',
    tmin rest self None = Ok self' /\
    coords (structure (dyn self'))
    = coords (structure (dyn self)) - min_step_struc self *: const_mx 1.
Proof.
move=> self.
have [_ H2 H3] := @structure_gradient_sign _ _ _ _ rest toy_symmetry
  toy_phonons toy_numpy self (const_mx 1) 0 (erefl _) isT.
split; first exact: H2.
have [self' Hstep] := toy_structure_step true 3 [::] (toy_init_history 1).
by exists self'; split=> //; apply: H3.
Defined.

(** *** The toy crystal has three translations *)

Lemma toy_translations_card : #|[pred c : 'I_(2 * 3) | (c < 3)%N]| = 3%N.
Proof. by rewrite -sum1_card big_mkcond /= !big_ord_recl big_ord0. Qed.

Lemma toy_three_translations : three_translations toy_phonons (toy_dyn 1).
Proof.
split=> /=.
- by apply/mxOverP => i j; rewrite mxE; case: ifP; rewrite ?rpred0 ?rpred1.
- by move=> i; rewrite mxE ltr01.
- by move=> c; rewrite mxE; case: ifP; rewrite ?eqxx ?oner_eq0.
- apply: etrans toy_translations_card; apply: eq_card => c.
  by rewrite !inE mxE; case: ifP; rewrite ?eqxx ?oner_eq0.
Qed.

Lemma GetStructPrecond_symmetric_psd_witness :
  exists P,
    [/\ GetStructPrecond toy_phonons (toy_dyn 1) = Ok P,
        P^T = P,
        P \is a realmx
      & forall lambda, eigenvalue P lambda -> 0 <= lambda].
Proof.
exact: (GetStructPrecond_symmetric_psd toy_three_translations (rpred1 _)).
Defined.

(** *** [init] with a root representation *)

Lemma toy_init_prelude g kl cfg :
  init_prelude (toy_ensemble g kl) toy_symmetry toy_phonons
    (toy_minimizer cfg 1 [::] (empty_history algC))
  = Ok (toy_minimizer cfg 1 [:: g%:M]
          (append_fe (empty_history algC) (0 - eq_energy cfg) 0)).
Proof.
rewrite /init_prelude /store_blocks [size _]/= leqnn [bind _ _]/=.
rewrite (_ : set_dyn _ _ = toy_minimizer cfg 1 [::] (empty_history algC)) //.
rewrite toy_check_imaginary [bind _ _]/=.
rewrite (_ : set_converged _ _ =
             toy_minimizer cfg 1 [::] (empty_history algC)) //.
by rewrite toy_free_energy.
Qed.

Lemma init_root_representation_witness :
  let start := toy_minimizer (toy_config "sqrt" true true true 3) 1 [::]
                 (empty_history algC) in
  (forall self,
     init rest toy_symmetry toy_phonons toy_numpy start <> Ok self) /\
  init rest toy_symmetry toy_phonons toy_numpy start = Raise ValueError.
Proof.
move=> start.
have [H1 H2] := @init_root_representation _ _ _ _ rest toy_symmetry
  toy_phonons toy_numpy start isT isT.
by split=> //; apply: H2; exact: toy_init_prelude.
Defined.

(** * Part V: further properties of the code *)

(** ** The root step, q point by q point *)

Section RootStepMore.
Variable C : numClosedFieldType.
Variable n : nat.
Local Notation block := 'M[C]_n.
Variable eigh : block -> 'rV[C]_n * block.
Local Notation root_block := (root_block eigh).

Lemma all_finite_Ok (T : Type) (s : seq (option T)) r :
  all_finite s = Ok r -> s = [seq Some x | x <- r].
Proof.
rewrite /all_finite; case: ifP => // Hall [<-].
by elim: s Hall => //= -[x|] s IH //= /IH {1}->.
Qed.

Lemma all_finite_NonFinite (T : Type) (s : seq (option T)) :
  (all_finite s = NonFinite) <-> ~~ all isSome s.
Proof. by rewrite /all_finite; case: ifP. Qed.

Lemma trCmx_mul m p q (A : 'M[C]_(m, p)) (B : 'M[C]_(p, q)) :
  (A *m B) ^t* = B ^t* *m A ^t*.
Proof. by rewrite trmx_mul map_mxM. Qed.

Lemma trCmxD (A B : block) : (A + B) ^t* = A ^t* + B ^t*.
Proof. by rewrite linearD /= map_mxD. Qed.

Lemma trCmxB (A B : block) : (A - B) ^t* = A ^t* - B ^t*.
Proof. by rewrite linearB /= map_mxB. Qed.

Lemma trCmxZ (s : C) (A : block) : (s *: A) ^t* = s^* *: A ^t*.
Proof. by rewrite linearZ /= map_mxZ. Qed.

Lemma hermsymE (A : block) : (A \is hermsymmx) = (A ^t* == A).
Proof.
apply/is_hermitianmxP/eqP; rewrite expr0 scale1r => H; first by rewrite -H.
by rewrite H.
Qed.

Lemma PerformRootStep_rootE dyn_q grad_q step_size repr :
  repr \in root_tags ->
  PerformRootStep eigh dyn_q grad_q step_size repr "sdes" =
  if size dyn_q != size grad_q then Raise ValueError
  else all_finite
         (mkseq (fun iq => root_block (repr == "root4"%string) step_size iq
                             (nth 0 dyn_q iq) (nth 0 grad_q iq))
            (size dyn_q)).
Proof.
rewrite !inE => /or3P [] /eqP ->; rewrite /PerformRootStep /=;
  case: ifP => // _; by rewrite -!map_comp.
Qed.

Lemma PerformRootStep_normalE dyn_q grad_q step_size :
  PerformRootStep eigh dyn_q grad_q step_size "normal" "sdes" =
  if size dyn_q != size grad_q then Raise ValueError
  else Ok (mkseq (fun iq => nth 0 dyn_q iq - step_size *: nth 0 grad_q iq)
             (size dyn_q)).
Proof.
rewrite /PerformRootStep /=; case: ifP => // _.
by rewrite -map_comp -[RHS]all_finite_Some -map_comp.
Qed.

Lemma PerformRootStep_Ok_size dyn_q grad_q step_size repr alg r :
  PerformRootStep eigh dyn_q grad_q step_size repr alg = Ok r ->
  size r = size dyn_q.
Proof.
rewrite /PerformRootStep; case: ifP => // _; case: ifP => // _.
case: ifP => // _ /all_finite_Ok /(congr1 size).
by case: (_ != "normal"%string); rewrite !size_map size_iota => <-.
Qed.


Lemma PerformRootStep_other_algorithm dyn_q grad_q step_size repr alg :
  alg != "sdes"%string ->
  exists e, PerformRootStep eigh dyn_q grad_q step_size repr alg = Raise e.
Proof.
move=> /negbTE Halg; rewrite /PerformRootStep.
case: ifP => _; first by exists ValueError.
case: ifP => _; first by exists ValueError.
by rewrite Halg; exists ValueError.
Qed.

Lemma regularize_not_neg (w : 'rV[C]_n) a : (regularize w 0 a < 0) = false.
Proof. by rewrite !mxE; case: ifP => //; rewrite ltxx. Qed.

Lemma regularize_id (w : 'rV[C]_n) :
  [forall a, ~~ (w 0 a < 0)] -> regularize w = w.
Proof.
by move=> /forallP Hw; apply/rowP => a; rewrite !mxE (negbTE (Hw a)).
Qed.

(** A block is [nan] exactly off the zone centre, at a negative
    eigenvalue. *)
Lemma root_block_isSome root4 step_size iq (D G : block) :
  isSome (root_block root4 step_size iq D G) =
  (iq == 0%N) || [forall a, ~~ ((eigh D).1 0 a < 0)].
Proof.
rewrite /root_block /root_conversion; case: (eigh D) => w V /=.
case: ifP => _ /=; rewrite /np_sqrt.
  have -> : [forall a, ~~ (regularize w 0 a < 0)].
    by apply/forallP => a; rewrite regularize_not_neg.
  by case: root4.
by case: ifP => _ //; case: root4.
Qed.

Lemma root_block_zone_centre root4 step_size iq (D G : block) B :
  root_block root4 step_size iq D G = Some B ->
  root_block root4 step_size 0 D G = Some B.
Proof.
rewrite /root_block /root_conversion; case: (eigh D) => w V /=.
case: ifP => // _; rewrite {1}/np_sqrt; case: ifP => // Hw.
by rewrite (regularize_id Hw) /np_sqrt Hw.
Qed.

Lemma mkseq_Some (T : Type) (x0 : T) (f : nat -> option T) m (r : seq T) :
  mkseq f m = [seq Some x | x <- r] ->
  size r = m /\ forall i, (i < m)%N -> f i = Some (nth x0 r i).
Proof.
move=> H; have Hsz : size r = m by rewrite -(size_mkseq f m) H size_map.
split=> // i Hi; rewrite -(nth_mkseq None f Hi) H (nth_map x0) //.
by rewrite Hsz.
Qed.


(** X1: when the step returns an array without [nan], the array has
    one block per q point, and the block of each q point is what the
    step returns on that q point alone.  The step on one q point alone
    never returns a [nan]: its block is the first one and is clamped, so
    the same does not hold of an array with a [nan] block. *)
Theorem PerformRootStep_blockwise dyn_q grad_q step_size repr alg :
  [/\ forall r,
        PerformRootStep eigh dyn_q grad_q step_size repr alg = Ok r ->
        size r = size dyn_q /\
        forall iq, (iq < size dyn_q)%N ->
          PerformRootStep eigh [:: nth 0 dyn_q iq] [:: nth 0 grad_q iq]
            step_size repr alg = Ok [:: nth 0 r iq]
    & forall D G,
        PerformRootStep eigh [:: D] [:: G] step_size repr alg <> NonFinite].
Proof.
have Hcases :
  [\/ exists e, forall dyn grad,
         PerformRootStep eigh dyn grad step_size repr alg = Raise e,
      alg = "sdes"%string /\ repr = "normal"%string
    | alg = "sdes"%string /\ repr \in root_tags].
  have [/eqP -> |Halg] := boolP (alg == "sdes"%string); last first.
    constructor 1; exists ValueError => dyn grad.
    rewrite /PerformRootStep (negbTE Halg).
    by case: ifP => // _; case: ifP.
  have [Hrep|Hrep] := boolP (repr \in ALLOWED_REPRESENTATION); last first.
    constructor 1; exists ValueError => dyn grad.
    by rewrite /PerformRootStep (negbTE Hrep).
  move: Hrep; rewrite inE => /orP [/eqP -> |Hrep]; first by constructor 2.
  constructor 3; split=> //.
  by move: Hrep; rewrite !inE => /or3P [] ->; rewrite ?orbT.
split.
- move=> r Hr; split; first exact: PerformRootStep_Ok_size Hr.
  move=> iq Hiq; move: Hr.
  case: Hcases => [[e He]|[-> ->]|[-> Hrep]]; first by rewrite He.
    rewrite !PerformRootStep_normalE /=; case: ifP => // _ [<-].
    by rewrite nth_mkseq.
  rewrite !PerformRootStep_rootE //=; case: ifP => // _.
  move=> /all_finite_Ok /(mkseq_Some 0) [_ /(_ iq Hiq)] /root_block_zone_centre.
  by rewrite /all_finite /= => ->.
- move=> D G; case: Hcases => [[e ->]|[-> ->]|[-> Hrep]] //.
  rewrite PerformRootStep_rootE //= => /all_finite_NonFinite /=.
  by rewrite root_block_isSome eqxx.
Qed.

(** X2: the step returns a [nan] exactly in a root representation,
    with matching arrays and the algorithm sdes, when [eigh] gives a
    negative eigenvalue at a q point other than the first. *)
Theorem PerformRootStep_nan dyn_q grad_q step_size repr alg :
  PerformRootStep eigh dyn_q grad_q step_size repr alg = NonFinite <->
  [/\ repr \in root_tags, size dyn_q = size grad_q, alg = "sdes"%string
    & exists iq a,
        [/\ (0 < iq)%N, (iq < size dyn_q)%N
          & (eigh (nth 0 dyn_q iq)).1 0 a < 0]].
Proof.
split.
- have [/eqP -> |/PerformRootStep_other_algorithm Halg] :=
    boolP (alg == "sdes"%string); last first.
    by have [e ->] := Halg dyn_q grad_q step_size repr.
  have [Hrep|Hrep] := boolP (repr \in ALLOWED_REPRESENTATION); last first.
    by rewrite /PerformRootStep (negbTE Hrep).
  move: Hrep; rewrite inE => /orP [/eqP -> |Hrep].
    by rewrite PerformRootStep_normalE; case: ifP.
  have {}Hrep : repr \in root_tags.
    by move: Hrep; rewrite !inE => /or3P [] ->; rewrite ?orbT.
  rewrite PerformRootStep_rootE //; case: ifP => // /negbFE/eqP Hsz.
  move=> /all_finite_NonFinite /allPn [b /mapP [iq]].
  rewrite mem_iota add0n /= => Hiq ->.
  rewrite root_block_isSome negb_or => /andP [Hiq0 /forallPn [a /negbNE Ha]].
  by split=> //; exists iq, a; rewrite lt0n.
- case=> Hrep Hsz -> [iq [a [Hiq0 Hiq Ha]]].
  rewrite PerformRootStep_rootE // Hsz eqxx /=.
  apply/all_finite_NonFinite/allPn.
  exists (root_block (repr == "root4"%string) step_size iq
            (nth 0 dyn_q iq) (nth 0 grad_q iq)).
    by apply/mapP; exists iq; rewrite // mem_iota add0n /= -Hsz.
  rewrite root_block_isSome negb_or -lt0n Hiq0 /=.
  by apply/forallPn; exists a; rewrite Ha.
Qed.


Lemma einsum_hermitian (x : 'rV[C]_n) (V : block) :
  x \is a realmx -> (einsum_a_ba_ca x V) ^t* = einsum_a_ba_ca x V.
Proof.
move=> Hx; apply/matrixP => b c; rewrite !mxE rmorph_sum; apply: eq_bigr => a _.
by rewrite !rmorphM /= conjCK (CrealP (mxOverP Hx _ _)) -mulrA [V c a * _]mulrC mulrA.
Qed.

Lemma anticommutator_hermitian (A B : block) :
  A ^t* = A -> B ^t* = B -> (A *m B + B *m A) ^t* = A *m B + B *m A.
Proof. by move=> HA HB; rewrite trCmxD !trCmx_mul HA HB addrC. Qed.

Lemma np_sqrt_real (w sq : 'rV[C]_n) :
  w \is a realmx -> np_sqrt w = Some sq ->
  sq \is a realmx /\ map_mx sqrtC sq \is a realmx.
Proof.
move=> Hw; rewrite /np_sqrt; case: ifP => // /forallP Hpos [<-].
have H0 a : 0 <= w 0 a.
  by rewrite real_leNgt ?real0 ?(mxOverP Hw) // Hpos.
by split; apply/mxOverP => i a; rewrite !mxE ord1 ger0_real // !sqrtC_ge0.
Qed.

Lemma regularize_real (w : 'rV[C]_n) :
  w \is a realmx -> regularize w \is a realmx.
Proof.
move=> Hw; apply/mxOverP => i a; rewrite !mxE.
by case: ifP => _; rewrite ?real0 // (mxOverP Hw).
Qed.

Lemma root_conversion_hermitian root4 iq (D G : block) nd ng :
  (eigh D).1 \is a realmx -> G ^t* = G ->
  root_conversion eigh root4 iq D G = Some (nd, ng) ->
  nd ^t* = nd /\ ng ^t* = ng.
Proof.
rewrite /root_conversion; case: (eigh D) => w V /= Hw HG.
have {}Hw : (if iq == 0%N then regularize w else w) \is a realmx.
  by case: ifP => _ //; exact: regularize_real.
case Hsq: (np_sqrt _) => [sq|] //.
have [Hsq1 Hsq2] := np_sqrt_real Hw Hsq.
have H1 := einsum_hermitian V Hsq1.
have H2 := einsum_hermitian V Hsq2.
have H3 := anticommutator_hermitian H1 HG.
case: root4 => -[<- <-]; split=> //.
exact: anticommutator_hermitian.
Qed.

Lemma square_hermitian (R : block) : R ^t* = R -> (R *m R) ^t* = R *m R.
Proof. by move=> HR; rewrite trCmx_mul HR. Qed.

Lemma square_eigenvalue_ge0 (R : block) lambda :
  R ^t* = R -> eigenvalue (R *m R) lambda -> 0 <= lambda.
Proof.
move=> HR /eigenvalueP [v Hv Hv0].
have : 0 <= (v *m (R *m R) *m v ^t*) 0 0.
  rewrite mulmxA -mulmxA -{2}HR -trCmx_mul -dotmxE.
  exact: (dnorm_ge0 (@dotmx C _)).
rewrite Hv -scalemxAl mxE -dotmxE.
by rewrite pmulr_lge0 // (dnorm_gt0 (@dotmx C _)).
Qed.

Lemma root_inversion_psd root4 (R : block) :
  R ^t* = R ->
  (root_inversion root4 R) ^t* = root_inversion root4 R /\
  forall lambda, eigenvalue (root_inversion root4 R) lambda -> 0 <= lambda.
Proof.
move=> HR; have HR2 := square_hermitian HR.
rewrite /root_inversion; case: root4; split=> //.
- exact: square_hermitian.
- by move=> lambda; apply: square_eigenvalue_ge0.
- by move=> lambda; apply: square_eigenvalue_ge0.
Qed.

(** X3: in a root representation, with a real step and Hermitian
    gradient blocks, every block the step returns is Hermitian and has
    no negative eigenvalue, whatever the step size. *)
Theorem PerformRootStep_positive dyn_q grad_q step_size repr r :
  repr \in root_tags -> step_size \is Num.real ->
  (forall D, D \in dyn_q -> (eigh D).1 \is a realmx) ->
  (forall G, G \in grad_q -> G \is hermsymmx) ->
  PerformRootStep eigh dyn_q grad_q step_size repr "sdes" = Ok r ->
  forall B, B \in r ->
    B \is hermsymmx /\ forall lambda, eigenvalue B lambda -> 0 <= lambda.
Proof.
move=> Hrep Hs Hdyn Hgrad; rewrite PerformRootStep_rootE //.
case: ifP => // /negbFE/eqP Hsz /all_finite_Ok /(mkseq_Some 0) [Hr Hblock] B HB.
have Hi : (seq.index B r < size dyn_q)%N by rewrite -Hr index_mem.
have := Hblock _ Hi; rewrite nth_index // /root_block.
case Hconv: (root_conversion _ _ _ _ _) => [[nd ng]|] //= [<-].
have HD := Hdyn _ (mem_nth 0 Hi).
have HG : (nth 0 grad_q (seq.index B r)) ^t* = nth 0 grad_q (seq.index B r).
  by apply/eqP; rewrite -hermsymE Hgrad // mem_nth // -Hsz.
have [Hnd Hng] := root_conversion_hermitian HD HG Hconv.
have HR : (nd - step_size *: ng) ^t* = nd - step_size *: ng.
  by rewrite trCmxB trCmxZ Hnd Hng (CrealP Hs).
have [H1 H2] := root_inversion_psd (repr == "root4"%string) HR.
by rewrite hermsymE H1 eqxx.
Qed.

End RootStepMore.

Lemma einsum_scalar (C : numClosedFieldType) n (y : C) :
  einsum_a_ba_ca (\row_(a < n) y) 1%:M = y%:M.
Proof.
apply/matrixP => b c; rewrite !mxE (bigD1 b) //= big1 ?addr0.
  move=> a Hab.
  by rewrite !mxE eq_sym (negbTE Hab) mulr0n rmorph0 mulr0 mul0r.
rewrite !mxE eqxx mulr1n rmorph1 mulr1 eq_sym.
by case: (b == c); rewrite ?mulr1n ?mulr0n ?mulr1 ?mulr0.
Qed.

Lemma root_block_scalar (C : numClosedFieldType) n (x g s : C) iq :
  0 <= x ->
  root_block (@eigh_diagonal C n) false s iq x%:M g%:M =
  Some (((sqrtC x - s * (sqrtC x * g + g * sqrtC x)) ^+ 2)%:M).
Proof.
move=> Hx; rewrite /root_block /root_conversion /eigh_diagonal.
have -> : \row_a (x%:M : 'M[C]_n) a a = \row_a x.
  by apply/rowP => a; rewrite !mxE eqxx.
have Hpos (a : 'I_n) : 0 <= (\row_a x : 'rV[C]_n) 0 a by rewrite mxE.
have -> : (if iq == 0%N then regularize (\row_a x : 'rV[C]_n) else \row_a x)
          = \row_a x.
  by case: ifP => _ //; exact: regularize_nonneg.
rewrite np_sqrt_nonneg //=.
have -> : map_mx sqrtC (\row_a x : 'rV[C]_n) = \row_a sqrtC x.
  by apply/rowP => a; rewrite !mxE.
rewrite einsum_scalar /root_inversion; congr Some.
by rewrite -!scalar_mxM -raddfD /= scale_scalar_mx -raddfB /= -scalar_mxM expr2.
Qed.

Lemma quarter_step (x : algC) : 0 <= x ->
  (sqrtC x - 4%:R^-1 * (sqrtC x * 1 + 1 * sqrtC x)) ^+ 2 = x / 4%:R.
Proof.
move=> Hx; have H := sqrtCK x.
by field: H.
Qed.

(** Two q points, the matrices 4 and 9, the gradient 1, the step 1/4 in
    the representation sqrt: the roots 2 and 3 move to 1 and 3/2. *)
Lemma root_example :
  PerformRootStep (@eigh_diagonal algC 3) [:: 4%:R%:M; 9%:R%:M]
    [:: 1%:M; 1%:M] 4%:R^-1 "sqrt" "sdes"
  = Ok [:: (4%:R / 4%:R)%:M; (9%:R / 4%:R)%:M].
Proof.
rewrite PerformRootStep_rootE //= /all_finite /=.
by rewrite !root_block_scalar ?ler0n //= !quarter_step ?ler0n.
Qed.

Lemma PerformRootStep_blockwise_witness :
  (size [:: ((4%:R / 4%:R)%:M : 'M[algC]_3); (9%:R / 4%:R)%:M] = 2%N /\
   forall iq, (iq < 2)%N ->
     PerformRootStep (@eigh_diagonal algC 3)
       [:: nth 0 [:: 4%:R%:M; 9%:R%:M] iq] [:: nth 0 [:: 1%:M; 1%:M] iq]
       4%:R^-1 "sqrt" "sdes"
     = Ok [:: nth 0 [:: (4%:R / 4%:R)%:M; (9%:R / 4%:R)%:M] iq]) /\
  PerformRootStep (@eigh_diagonal algC 3) [:: (-1)%:M] [:: 0] 4%:R^-1
    "sqrt" "sdes" <> NonFinite.
Proof.
have [H1 H2] := @PerformRootStep_blockwise algC 3 (@eigh_diagonal algC 3)
  [:: 4%:R%:M; 9%:R%:M] [:: 1%:M; 1%:M] 4%:R^-1 "sqrt"%string "sdes"%string.
by split; [exact: (H1 _ root_example) | exact: H2].
Defined.

Lemma PerformRootStep_positive_witness :
  ((9%:R / 4%:R)%:M : 'M[algC]_3) \is hermsymmx /\
  forall lambda,
    eigenvalue ((9%:R / 4%:R)%:M : 'M[algC]_3) lambda -> 0 <= lambda.
Proof.
apply: (@PerformRootStep_positive algC 3 (@eigh_diagonal algC 3)
          [:: 4%:R%:M; 9%:R%:M] [:: 1%:M; 1%:M] 4%:R^-1 "sqrt"%string
          [:: (4%:R / 4%:R)%:M; (9%:R / 4%:R)%:M] isT _ _ _ root_example).
- by rewrite realV realn.
- move=> D; rewrite !inE => /orP [] /eqP ->; apply/mxOverP => i a;
    by rewrite !mxE eqxx mulr1n realn.
- by move=> G; rewrite !inE => /orP [] /eqP ->; rewrite hermsym_scalar ?real1.
- by rewrite !inE eqxx orbT.
Defined.

(** ** The step on the square roots *)

Section RootStepFormula.
Variable C : numClosedFieldType.
Variable n : nat.
Local Notation block := 'M[C]_n.
Variable eigh : block -> 'rV[C]_n * block.
Local Notation root_of := (root_of eigh).

Lemma quadratic_eigenvalue_ge0 (P : block) lambda :
  (forall v : 'rV[C]_n, 0 <= (v *m P *m v ^t*) 0 0) ->
  eigenvalue P lambda -> 0 <= lambda.
Proof.
move=> HP /eigenvalueP [v Hv Hv0].
have := HP v; rewrite Hv -scalemxAl mxE -dotmxE.
by rewrite pmulr_lge0 // (dnorm_gt0 (@dotmx C _)).
Qed.

Lemma einsum_eigenvalue_ge0 (x : 'rV[C]_n) (V : block) lambda :
  (forall a, 0 <= x 0 a) ->
  eigenvalue (einsum_a_ba_ca x V) lambda -> 0 <= lambda.
Proof.
move=> Hx; apply: quadratic_eigenvalue_ge0 => v.
rewrite einsum_a_ba_caE !mulmxA -[_ *m V^T *m _]mulmxA.
have <- : (v *m map_mx conjC V) ^t* = V^T *m v ^t*.
  rewrite trCmx_mul; congr (_ *m _).
  by apply/matrixP => i j; rewrite !mxE conjCK.
rewrite mul_mx_diag !mxE; apply: sumr_ge0 => c _; rewrite !mxE.
by rewrite mulrAC mulr_ge0 // mul_conjC_ge0.
Qed.

Lemma root_ofP (D : block) :
  eigh_spec D (eigh D) -> D \is a realmx -> (forall a, 0 <= (eigh D).1 0 a) ->
  [/\ root_of D *m root_of D = D, (root_of D) ^t* = root_of D
    & forall lambda, eigenvalue (root_of D) lambda -> 0 <= lambda].
Proof.
rewrite /root_of; case: (eigh D) => w V [/= Hw HV HD] Hreal Hpos; split.
- rewrite einsum_sqrt_sq // (einsum_conj Hw HD).
  by apply/matrixP => i j; rewrite mxE (CrealP (mxOverP Hreal _ _)).
- apply: einsum_hermitian; apply/mxOverP => i a.
  by rewrite mxE ord1 ger0_real // sqrtC_ge0.
- by move=> lambda; apply: einsum_eigenvalue_ge0 => a; rewrite mxE sqrtC_ge0.
Qed.

Lemma root_block_sqrt step_size iq (D G : block) :
  (forall a, 0 <= (eigh D).1 0 a) ->
  root_block eigh false step_size iq D G =
  Some (let R := root_of D - step_size *: (root_of D *m G + G *m root_of D) in
        R *m R).
Proof.
rewrite /root_block /root_conversion /root_of; case: (eigh D) => w V /= Hpos.
have -> : (if iq == 0%N then regularize w else w) = w.
  by case: ifP => // _; exact: regularize_nonneg.
by rewrite np_sqrt_nonneg.
Qed.

(** X4: in the representation sqrt (or root2), on real symmetric
    blocks without negative eigenvalues, the step is the gradient step on
    the square roots: with [S * S = D], [S] Hermitian without negative
    eigenvalues, the result is the square of
    [S - step_size * (S * G + G * S)]. *)
Theorem PerformRootStep_sqrt dyn_q grad_q step_size repr :
  repr \in [:: "sqrt"; "root2"]%string -> size dyn_q = size grad_q ->
  (forall D, D \in dyn_q ->
     [/\ eigh_spec D (eigh D), D \is a realmx
       & forall lambda, eigenvalue D lambda -> 0 <= lambda]) ->
  exists roots,
    [/\ size roots = size dyn_q,
        forall iq, (iq < size dyn_q)%N ->
          let S := nth 0 roots iq in
          [/\ S *m S = nth 0 dyn_q iq, S ^t* = S
            & forall lambda, eigenvalue S lambda -> 0 <= lambda]
      & PerformRootStep eigh dyn_q grad_q step_size repr "sdes" =
        Ok [seq (let R := sg.1 - step_size *: (sg.1 *m sg.2 + sg.2 *m sg.1) in
                 R *m R)
           | sg <- zip roots grad_q]].
Proof.
move=> Hrep Hsz Hdyn.
have Hpos D : D \in dyn_q -> forall a, 0 <= (eigh D).1 0 a.
  by move=> /Hdyn [Hspec _ Hp] a; apply/Hp/eigh_eigenvalue.
exists [seq root_of D | D <- dyn_q]; split; first by rewrite size_map.
  move=> iq Hiq /=; rewrite (nth_map 0) //.
  have HD := mem_nth 0 Hiq.
  by have [Hspec Hreal _] := Hdyn _ HD; apply: root_ofP => //; exact: Hpos.
have Htag : repr \in root_tags.
  by move: Hrep; rewrite !inE => /orP [] ->; rewrite ?orbT.
have H4 : (repr == "root4"%string) = false.
  by move: Hrep; rewrite !inE => /orP [] /eqP ->.
rewrite PerformRootStep_rootE // Hsz eqxx /= H4 -Hsz.
rewrite -[RHS]all_finite_Some; congr all_finite.
apply: (@eq_from_nth _ None).
  by rewrite size_mkseq !size_map size_zip size_map -Hsz minnn.
move=> i; rewrite size_mkseq => Hi.
have Hi2 : (i < size (zip [seq root_of D | D <- dyn_q] grad_q))%N.
  by rewrite size_zip size_map -Hsz minnn.
rewrite nth_mkseq // (nth_map 0) ?size_map // (nth_map (0, 0)) //.
rewrite nth_zip ?size_map //= (nth_map 0) //.
by rewrite root_block_sqrt //; apply: Hpos; exact: mem_nth.
Qed.

End RootStepFormula.

Lemma PerformRootStep_sqrt_witness :
  exists roots : seq 'M[algC]_3,
    [/\ size roots = 2%N,
        forall iq, (iq < 2)%N ->
          let S := nth 0 roots iq in
          [/\ S *m S = nth 0 [:: 4%:R%:M; 9%:R%:M] iq, S ^t* = S
            & forall lambda, eigenvalue S lambda -> 0 <= lambda]
      & PerformRootStep (@eigh_diagonal algC 3) [:: 4%:R%:M; 9%:R%:M]
          [:: 1%:M; 1%:M] 4%:R^-1 "sqrt" "sdes" =
        Ok [seq (let R := sg.1 - 4%:R^-1 *: (sg.1 *m sg.2 + sg.2 *m sg.1) in
                 R *m R)
           | sg <- zip roots [:: 1%:M; 1%:M]]].
Proof.
apply: (@PerformRootStep_sqrt algC 3 (@eigh_diagonal algC 3)
          [:: 4%:R%:M; 9%:R%:M] [:: 1%:M; 1%:M] 4%:R^-1 "sqrt"%string
          isT (erefl _)).
move=> D; rewrite !inE => /orP [] /eqP ->; apply: scalar_block_ok; exact: ler0n.
Defined.

(** ** The best step and the preconditioner on the modes *)

Section PreconditionerMore.
Variable C : numClosedFieldType.
Variable nat_ : nat.
Variable QGrid : Type.
Local Notation block := 'M[C]_(nat_ * 3).
Local Notation Phonons := (Phonons C nat_ QGrid).
Variable ph : PhononOps C nat_ QGrid.
Variable np : NumpyOps C nat_.

(** [np.max] of real numbers is one of them and bounds them all. *)
Lemma foldl_max_real (x : C) (s : seq C) :
  x \is Num.real -> all (fun y => y \is Num.real) s ->
  [/\ foldl Order.max x s \is Num.real,
      foldl Order.max x s \in x :: s
    & forall y, y \in x :: s -> y <= foldl Order.max x s].
Proof.
elim: s x => [|z s IH] x Hx /=.
  by move=> _; split=> //; rewrite ?mem_head // => y; rewrite inE => /eqP ->.
case/andP => Hz Hs.
have Hm : Order.max x z \is Num.real by rewrite /Order.max; case: ifP.
have [H1 H2 H3] := IH _ Hm Hs; split=> //.
- move: H2; rewrite !inE => /orP [/eqP -> |->]; last by rewrite !orbT.
  by rewrite /Order.max; case: ifP => _; rewrite eqxx ?orbT.
- move=> y; rewrite !inE => /or3P [/eqP -> |/eqP -> |Hy].
  + apply: le_trans (H3 _ (mem_head _ _)).
    by rewrite /Order.max; case: ifP => // /ltW.
  + apply: le_trans (H3 _ (mem_head _ _)).
    rewrite /Order.max; case: ifP => // /negbT.
    by rewrite -real_leNgt.
  + by apply: H3; rewrite inE Hy orbT.
Qed.


(** X5: when some eigenvalue of the first matrix has a positive real
    part, [GetBestWykoffStep] returns a step that is not negative, whose
    product with the real part of every eigenvalue is at most
    [BOHR_TO_ANGSTROM ** 2], with equality for one of them. *)
Theorem GetBestWykoffStep_bound (current_dyn : Phonons) D rest :
  dynmats current_dyn = D :: rest ->
  BOHR_TO_ANGSTROM ph \is Num.real ->
  (exists a, 0 < 'Re (eigvals np D 0 a)) ->
  exists best,
    [/\ GetBestWykoffStep ph np current_dyn = Ok best,
        0 <= best,
        forall a, best * 'Re (eigvals np D 0 a) <= BOHR_TO_ANGSTROM ph ^+ 2
      & exists a, best * 'Re (eigvals np D 0 a) = BOHR_TO_ANGSTROM ph ^+ 2].
Proof.
move=> Hd HB [a0 Ha0]; rewrite /GetBestWykoffStep Hd.
set s := [seq _ | a <- _].
have Hin a : 'Re (eigvals np D 0 a) \in s.
  by apply/mapP; exists a; rewrite // mem_enum.
have Hreal : all (fun y : C => y \is Num.real) s.
  by apply/allP => y /mapP [a _ ->]; exact: Creal_Re.
case Hs: s Hin Hreal => [|x s'] Hin /=; first by have := Hin a0; rewrite in_nil.
case/andP => Hx /(foldl_max_real Hx) [Hlm Hmem Hle].
set lm := foldl _ _ _ in Hlm Hmem Hle *.
have Hpos : 0 < lm by apply: lt_le_trans Ha0 (Hle _ (Hin a0)).
have HB2 : 0 <= BOHR_TO_ANGSTROM ph ^+ 2 by rewrite real_exprn_even_ge0.
rewrite /fdiv gt_eqF //=.
exists (1 / lm * BOHR_TO_ANGSTROM ph ^+ 2); split=> //.
- by rewrite mulr_ge0 // div1r invr_ge0 ltW.
- move=> a; rewrite mulrAC div1r; apply: ler_piMl => //.
  by rewrite mulrC ler_pdivrMr // mul1r Hle.
- have : lm \in s by rewrite Hs.
  case/mapP => a _ Ha; exists a.
  by rewrite -Ha mulrAC div1r mulVf ?mul1r // gt_eqF.
Qed.

(** X6: [GetBestWykoffStep] raises [IndexError] on a [Phonons] without
    matrices, and returns [inf] when the largest real part of the
    eigenvalues is zero. *)
Theorem GetBestWykoffStep_degenerate (current_dyn : Phonons) :
  [/\ dynmats current_dyn = [::] ->
      GetBestWykoffStep ph np current_dyn = Raise IndexError
    & forall D rest, dynmats current_dyn = D :: rest ->
      (forall a, 'Re (eigvals np D 0 a) <= 0) ->
      (exists a, 'Re (eigvals np D 0 a) = 0) ->
      GetBestWykoffStep ph np current_dyn = NonFinite].
Proof.
split; first by rewrite /GetBestWykoffStep => ->.
move=> D rest Hd Hneg [a0 Ha0]; rewrite /GetBestWykoffStep Hd.
set s := [seq _ | a <- _].
have Hin a : 'Re (eigvals np D 0 a) \in s.
  by apply/mapP; exists a; rewrite // mem_enum.
have Hreal : all (fun y : C => y \is Num.real) s.
  by apply/allP => y /mapP [a _ ->]; exact: Creal_Re.
case Hs: s Hin Hreal => [|x s'] Hin /=; first by have := Hin a0; rewrite in_nil.
case/andP => Hx /(foldl_max_real Hx) [Hlm Hmem Hle].
set lm := foldl _ _ _ in Hlm Hmem Hle *.
have -> : lm = 0.
  apply/eqP; rewrite eq_le -{2}Ha0 Hle // andbT.
  have : lm \in s by rewrite Hs.
  by case/mapP => a _ ->.
by rewrite /fdiv eqxx.
Qed.


(** X7: with real orthonormal polarization vectors and positive
    masses, the preconditioner sends the mass-weighted vector of a
    translation to zero, and that of any other mode to
    [BOHR_TO_ANGSTROM ** 2 / w ** 2] times the same mode divided by the
    square roots of the masses: it inverts the force constants away from
    the translations. *)
Theorem GetStructPrecond_modes (current_dyn : Phonons) w pols :
  DyagDinQ0 ph current_dyn = (w, pols) ->
  let mass := masses (structure current_dyn) in
  let m := spread_masses mass in
  pols \is a realmx -> pols^T *m pols = 1%:M ->
  (forall i, 0 < mass 0 i) ->
  (forall c, ~~ get_translations ph pols mass c -> w 0 c != 0) ->
  exists P,
    GetStructPrecond ph current_dyn = Ok P /\
    forall c,
      (\row_a (sqrtC (m 0 a) * pols a c)) *m P^T =
      if get_translations ph pols mass c then 0
      else (BOHR_TO_ANGSTROM ph ^+ 2 / w 0 c ^+ 2)
             *: \row_a (pols a c / sqrtC (m 0 a)).
Proof.
move=> Hdiag mass m Hreal Horth Hmass Hw.
rewrite /GetStructPrecond Hdiag -/mass -/m.
set msi := map_mx _ m.
set wm2 := map_mx _ w.
set kept := [pred c | _].
set rpols := map_mx _ pols.
have Hm a : 0 < m 0 a by have [i ->] := spread_massesE mass a.
have Hfin : [forall a, 0 < m 0 a] && [forall c, kept c ==> (w 0 c != 0)].
  apply/andP; split; apply/forallP => a //.
  by apply/implyP; exact: Hw.
rewrite Hfin andbF.
exists (BOHR_TO_ANGSTROM ph ^+ 2 *: einsum_precond msi wm2 kept rpols).
have -> : rpols = pols.
  by apply/matrixP => a k; rewrite mxE; apply/Creal_ReP; rewrite (mxOverP Hreal).
split=> // c.
have HuW : (\row_a (sqrtC (m 0 a) * pols a c)) *m weighted_pols msi pols
           = delta_mx 0 c.
  apply/rowP => k; rewrite [RHS]mxE eqxx /= eq_sym.
  have <- : (pols^T *m pols) c k = (c == k)%:R by rewrite Horth !mxE.
  rewrite !mxE; apply: eq_bigr => a _; rewrite !mxE.
  rewrite mulrACA mul1r divff ?mul1r //.
  by rewrite sqrtC_eq0 gt_eqF.
rewrite linearZ /= einsum_precond_sym -scalemxAr einsum_precondE.
rewrite !mulmxA HuW -mulmxA -rowE.
have -> : row c (diag_mx (kept_weights wm2 kept) *m (weighted_pols msi pols)^T)
          = kept_weights wm2 kept 0 c *: \row_a (pols a c / sqrtC (m 0 a)).
  apply/rowP => b; rewrite mxE mul_diag_mx !mxE.
  by congr (_ * _); rewrite mul1r mulrC.
rewrite mxE /kept /=; case: (get_translations ph pols mass c) => /=.
  by rewrite scale0r scaler0.
by rewrite scalerA !mxE mul1r.
Qed.

End PreconditionerMore.

Lemma GetBestWykoffStep_bound_witness :
  exists best,
    [/\ GetBestWykoffStep toy_phonons toy_numpy (toy_dyn 2%:R) = Ok best,
        0 <= best,
        forall a, best * 'Re (eigvals toy_numpy 2%:R%:M 0 a)
                  <= BOHR_TO_ANGSTROM toy_phonons ^+ 2
      & exists a, best * 'Re (eigvals toy_numpy 2%:R%:M 0 a)
                  = BOHR_TO_ANGSTROM toy_phonons ^+ 2].
Proof.
apply: (@GetBestWykoffStep_bound algC 2 unit toy_phonons toy_numpy
          (toy_dyn 2%:R) 2%:R%:M [::] (erefl _)).
- exact: rpred1.
- by exists ord0; rewrite /= !mxE eqxx mulr1n (Creal_ReP _ _) ?realn ?ltr0n.
Defined.

Lemma toy_polarisations_orthonormal :
  (1%:M : 'M[algC]_(2 * 3))^T *m 1%:M = 1%:M.
Proof. by rewrite trmx1 mulmx1. Qed.

Lemma GetStructPrecond_modes_witness :
  exists P,
    GetStructPrecond toy_phonons (toy_dyn 1) = Ok P /\
    forall c : 'I_(2 * 3),
      (\row_a (sqrtC (spread_masses (masses (structure (toy_dyn 1))) 0 a)
               * (1%:M : 'M[algC]_(2 * 3)) a c)) *m P^T =
      if (c < 3)%N then 0
      else (BOHR_TO_ANGSTROM toy_phonons ^+ 2 / toy_frequencies 0 c ^+ 2)
             *: \row_a ((1%:M : 'M[algC]_(2 * 3)) a c
                        / sqrtC (spread_masses (masses (structure (toy_dyn 1))) 0 a)).
Proof.
apply: (@GetStructPrecond_modes algC 2 unit toy_phonons (toy_dyn 1)
          toy_frequencies 1%:M (erefl _)).
- by apply/mxOverP => i j; rewrite mxE; case: eqP => _; rewrite ?rpred0 ?rpred1.
- exact: toy_polarisations_orthonormal.
- by move=> i; rewrite mxE ltr01.
- by move=> c /=; rewrite mxE => /negbTE ->; rewrite oner_eq0.
Defined.

(** ** The minimizer: [init], the step, the loop *)

Section MinimizerMore.
Variable C : numClosedFieldType.
Variable nat_ : nat.
Variable QGrid : Type.
Variable Ens : Type.

Local Notation block := 'M[C]_(nat_ * 3).
Local Notation positions := 'M[C]_(nat_, 3).
Local Notation Phonons := (Phonons C nat_ QGrid).
Local Notation SSCHA_Minimizer := (SSCHA_Minimizer C nat_ QGrid Ens).

Variable ens : EnsembleOps C nat_ QGrid Ens.
Variable sym : SymmetryOps C nat_ QGrid.
Variable ph : PhononOps C nat_ QGrid.
Variable np : NumpyOps C nat_.

Local Notation check_stop := (check_stop ens ph).
Local Notation check_imaginary_frequencies := (check_imaginary_frequencies ens ph).
Local Notation minimization_step := (minimization_step ens sym ph np).
Local Notation loop_body := (loop_body ens sym ph np).
Local Notation run_loop := (run_loop ens sym ph np).
Local Notation run := (run ens sym ph np).
Local Notation init := (init ens sym ph np).
Local Notation init_prelude := (init_prelude ens sym ph).
Local Notation after_passes := (after_passes ens sym ph np).
Local Notation only_maximum := (only_maximum ens sym ph np).
Local Notation latest := (@latest C nat_ QGrid Ens).
Local Notation quiet := (@quiet C nat_ QGrid Ens).
Local Notation keeps_converged := (@keeps_converged C nat_ QGrid Ens).
Local Notation __init__ := (__init__ ens).

(** *** The test on imaginary frequencies *)

(** X8: with real frequencies in increasing order, the answer [False]
    means that no mode other than a translation has a negative
    frequency; the answer [True] means that one has. *)
Theorem check_imaginary_frequencies_sound (self : SSCHA_Minimizer) :
  let w := nontranslational
             (supercell_modes ph (dyn self) (supercell ens (ensemble self))) in
  all (fun x : C => x \is Num.real) w -> sorted <=%O w ->
  [/\ check_imaginary_frequencies self = Ok false ->
      forall x, x \in w -> 0 <= x
    & check_imaginary_frequencies self = Ok true ->
      exists2 x, x \in w & x < 0].
Proof.
move=> w; rewrite /check_imaginary_frequencies -/w.
case: w => [|w0 w'] //= /andP [Hw0 _] Hpath; split.
- case: ifP => [_|/negbT Hneg _ x].
    by case: ifP => // _; case: ifP.
  have H0 : 0 <= w0 by rewrite real_leNgt ?real0.
  rewrite inE => /orP [/eqP -> //|Hx].
  apply: le_trans H0 _.
  by have /allP := order_path_min le_trans Hpath; apply.
- case: ifP => // Hneg _.
  by exists w0; rewrite ?mem_head.
Qed.

(** *** [init] *)

Lemma init_preludeE start self :
  init_prelude start = Ok self ->
  exists fe err,
    self =
    {| config := config start; ensemble := ensemble start;
       dyn := set_dynmats (dyn start)
                (take (size (dynmats (dyn start)))
                   (SymmetrizeFCQ sym (dyn start) (dynmats (dyn start)) "custom"));
       min_step_struc := min_step_struc start;
       prev_grad := (get_preconditioned_gradient ens (ensemble start) true).1;
       __converged__ := false;
       history := append_fe (empty_history C) (fe - eq_energy (config start)) err |}.
Proof.
rewrite /init_prelude /store_blocks; case: ifP => //= _.
case: (check_imaginary_frequencies _) => //= _.
case: (get_free_energy_per_cell _ _) => //= -[fe err] [<-].
by exists fe, err.
Qed.

Lemma initE start self :
  init start = Ok self ->
  exists s1,
    [/\ init_prelude start = Ok s1,
        ~~ ((root_representation (config start) != "normal"%string)
            && precond_dyn (config start))
      & let s2 := set_history s1
                    (append_KL (history s1)
                       (get_effective_sample_size ens (ensemble start))) in
        if precond_wyck (config start) then self = s2
        else exists2 best, GetBestWykoffStep ph np (dyn s1) = Ok best
                         & self = set_min_step_struc s2 (min_step_struc start * best)].
Proof.
rewrite /init; case Hpre: (init_prelude start) => [s1| |] //=.
have [fe [err Hs1]] := init_preludeE Hpre.
have Hc : config s1 = config start by rewrite Hs1.
have He : ensemble s1 = ensemble start by rewrite Hs1.
have Hm : min_step_struc s1 = min_step_struc start by rewrite Hs1.
rewrite Hc He; case: ifP => // /negbT Hroot.
case: ifP => /= [/negbTE -> |/negbFE ->] /=; last first.
  by case=> <-; exists s1; split.
case Hb: (GetBestWykoffStep ph np (dyn s1)) => [best| |] //= [<-].
by exists s1; split=> //=; exists best; rewrite // Hm.
Qed.

Lemma init_lists start self :
  init start = Ok self ->
  let h := history self in
  [/\ [/\ size (__fe__ h) = 1%N, size (__fe_err__ h) = 1%N & size (__KL__ h) = 1%N],
      [/\ __gc__ h = [::], __gc_err__ h = [::], __gw__ h = [::] & __gw_err__ h = [::]]
    & __converged__ self = false].
Proof.
move=> /initE [s1 [/init_preludeE [fe [err ->]] _ /=]].
by case: ifP => _ => [->|[best _ ->]].
Qed.

(** X9: [init] does not depend on the lists and the flag of an earlier
    minimization, and leaves one free energy, one error, one
    effective sample size, no gradient, and the flag [False]. *)
Theorem init_resets_history start h b :
  init (set_history (set_converged start b) h) = init start /\
  forall self, init start = Ok self ->
    let h' := history self in
    [/\ [/\ size (__fe__ h') = 1%N, size (__fe_err__ h') = 1%N
          & size (__KL__ h') = 1%N],
        [/\ __gc__ h' = [::], __gc_err__ h' = [::], __gw__ h' = [::]
          & __gw_err__ h' = [::]]
      & is_converged self = false].
Proof. by split=> // self; exact: init_lists. Qed.

(** X10: right after [init], before any step, [check_stop] raises
    [IndexError]: the gradient lists are empty. *)
Theorem check_stop_after_init start self :
  init start = Ok self -> check_stop self = Raise IndexError.
Proof.
by move=> /init_lists [_ [Hgc _ _ _] _]; rewrite /check_stop /total_cond Hgc.
Qed.

(** X11: [init] stores the symmetrized matrices in [dyn] and leaves
    the options, the atoms and the ensemble as they were: it does not
    call [update]. *)
Theorem init_keeps_ensemble start self :
  init start = Ok self ->
  [/\ config self = config start,
      ensemble self = ensemble start,
      structure (dyn self) = structure (dyn start)
    & dynmats (dyn self) =
      take (size (dynmats (dyn start)))
        (SymmetrizeFCQ sym (dyn start) (dynmats (dyn start)) "custom")].
Proof.
move=> /initE [s1 [/init_preludeE [fe [err ->]] _ /=]].
by case: ifP => _ => [->|[best _ ->]].
Qed.

Lemma init_config start self : init start = Ok self -> config self = config start.
Proof.
move=> /initE [s1 [/init_preludeE [fe [err ->]] _ /=]].
by case: ifP => _ => [->|[best _ ->]].
Qed.

(** X12: without the structure preconditioner every call of [init]
    multiplies [min_step_struc] by the best step again: two calls leave
    the product of both factors. *)
Theorem init_rescales_each_time start s1 s2 :
  ~~ precond_wyck (config start) ->
  init start = Ok s1 -> init s1 = Ok s2 ->
  exists best1 best2,
    [/\ GetBestWykoffStep ph np (dyn s1) = Ok best1,
        GetBestWykoffStep ph np (dyn s2) = Ok best2
      & min_step_struc s2 = min_step_struc start * best1 * best2].
Proof.
move=> /negbTE Hpw H1 H2.
have Hc := init_config H1.
move: H1 H2 => /initE [t1 [_ _ /=]]; rewrite Hpw => -[best1 Hb1 Hs1].
move=> /initE [t2 [_ _ /=]]; rewrite Hc Hpw => -[best2 Hb2 Hs2].
exists best1, best2; split.
- by rewrite Hs1.
- by rewrite Hs2.
- by rewrite Hs2 /= Hs1.
Qed.

(** *** [minimization_step] *)

Lemma minimization_step_sizes self gradient self' :
  minimization_step self gradient = Ok self' ->
  let h := history self in
  let h' := history self' in
  [/\ size (__gc__ h') = (size (__gc__ h)).+1,
      size (__gc_err__ h') = (size (__gc_err__ h)).+1,
      size (__gw__ h') = (size (__gw__ h)).+1,
      size (__gw_err__ h') = (size (__gw_err__ h)).+1
    & __fe_err__ h' = __fe_err__ h].
Proof.
rewrite /minimization_step.
case: (get_preconditioned_gradient _ _ _) => dyn_grad err.
case: (if ~~ neglect_symmetries _ then _ else _) => //= -[dyn_grad' err'].
case: (minim_struct _); last first.
  case: gradient => [f|] //=.
  case: (PerformRootStep _ _ _ _ _ _) => //= new_dyn.
  by case: (store_blocks _ _) => //= new_dynmats [<-] /=; rewrite !size_rcons.
case: (structure_gradient _ _ _ _) => //= -[sg sge].
case: (if gradient is Some _ then _ else _) => dg' sg'.
case: (fsqrt _) => //= gw; case: (fdiv _ _) => //= gwe2.
case: (fsqrt _) => //= gwe.
case: (PerformRootStep _ _ _ _ _ _) => //= new_dyn.
by case: (store_blocks _ _) => //= new_dynmats [<-] /=; rewrite !size_rcons.
Qed.

(** X13: with [minim_struct] off, a step given a gradient hook raises
    [TypeError] once the gradients are symmetrized; without a hook it
    leaves the structure alone and appends 0 to both structure-gradient
    lists. *)
Theorem minimization_step_without_structure self :
  ~~ minim_struct (config self) ->
  let nq := size (dynmats (dyn self)) in
  let g := get_preconditioned_gradient ens (ensemble self)
             (precond_dyn (config self)) in
  [/\ (nq <= size g.1)%N -> (nq <= size g.2)%N ->
      forall f, minimization_step self (Some f) = Raise TypeError
    & forall self', minimization_step self None = Ok self' ->
      [/\ structure (dyn self') = structure (dyn self),
          last_item (__gw__ (history self')) = Ok 0
        & last_item (__gw_err__ (history self')) = Ok 0]].
Proof.
move=> /negbTE Hms /=; rewrite /minimization_step Hms.
case: (get_preconditioned_gradient _ _ _) => dyn_grad err /=; split.
- move=> H1 H2 f; rewrite /each_q H1 H2 /=.
  by case: (~~ neglect_symmetries _).
- move=> self'.
  case: (if ~~ neglect_symmetries _ then _ else _) => //= -[dyn_grad' err'].
  case: (PerformRootStep _ _ _ _ _ _) => //= new_dyn.
  case: (store_blocks _ _) => //= new_dynmats [<-] /=.
  by rewrite !last_item_rcons.
Qed.

(** X14: a step that returns has recomputed the weights of the
    ensemble for the matrix it leaves in [dyn], keeps the number of q
    points, the masses and [min_step_struc]. *)
Theorem minimization_step_updates self gradient self' :
  minimization_step self gradient = Ok self' ->
  [/\ ensemble self' =
      update_weights ens (ensemble self) (dyn self') (current_T ens (ensemble self)),
      size (dynmats (dyn self')) = size (dynmats (dyn self)),
      masses (structure (dyn self')) = masses (structure (dyn self))
    & min_step_struc self' = min_step_struc self].
Proof.
rewrite /minimization_step.
case: (get_preconditioned_gradient _ _ _) => dyn_grad err.
case: (if ~~ neglect_symmetries _ then _ else _) => //= -[dyn_grad' err'].
case: (minim_struct _); last first.
  case: gradient => [f|] //=.
  case Hstep: (PerformRootStep _ _ _ _ _ _) => [new_dyn| |] //=.
  have Hsz := PerformRootStep_Ok_size Hstep.
  rewrite /store_blocks -Hsz leqnn /= => -[<-] /=.
  by rewrite take_size.
case: (structure_gradient _ _ _ _) => //= -[sg sge].
case: (if gradient is Some _ then _ else _) => dg' sg'.
case: (fsqrt _) => //= gw; case: (fdiv _ _) => //= gwe2.
case: (fsqrt _) => //= gwe.
case Hstep: (PerformRootStep _ _ _ _ _ _) => [new_dyn| |] //=.
have Hsz := PerformRootStep_Ok_size Hstep.
rewrite /store_blocks -Hsz leqnn /= => -[<-] /=.
by rewrite take_size.
Qed.

(** *** The step budget *)

Lemma run_loop_no_budget pre post gradient :
  quiet pre -> quiet post ->
  forall fuel self ka,
  ~~ (0 < max_ka (config self)) ->
  (forall k, only_maximum pre post gradient self k) ->
  run_loop fuel pre post gradient self ka = None.
Proof.
move=> Hpre Hpost; elim=> [|fuel IH] self ka // /negbTE Hneg Hother.
have [s' [old [fl [Hbody Him Hst]]]] := only_maximum_first (Hother 0%N).
have [Hc Hfe Hfl] := loop_body_history Hpre Hpost Hbody Him.
have Hrun : running fl.
  by rewrite /running (negbTE Him) (negbTE Hst) Hfl Hneg andbF.
rewrite /= Hbody Hrun; apply: IH; first by rewrite Hc Hneg.
by move=> k; apply: (only_maximum_next Hbody (Hother k.+1)).
Qed.

(** X15: [max_ka = 0] is no budget of zero steps: as for a negative
    value, the test on the number of steps never ends the loop. *)
Theorem run_max_ka_zero pre post gradient self :
  quiet pre -> quiet post ->
  max_ka (config self) = 0 ->
  (forall k, only_maximum pre post gradient (set_converged self false) k) ->
  forall fuel, run fuel pre post gradient self = None.
Proof.
move=> Hpre Hpost Hmax Hother fuel.
rewrite /run (@run_loop_no_budget pre post gradient Hpre Hpost fuel
                (set_converged self false) 0%N _ Hother) //=.
by rewrite Hmax ltxx.
Qed.

(** *** The lengths of the lists *)

Lemma loop_body_sizes pre post gradient self self' old fl :
  quiet pre -> quiet post ->
  loop_body pre post gradient self = Ok (self', old, fl) ->
  let h := history self in
  let h' := history self' in
  [/\ [/\ size (__gc__ h') = (size (__gc__ h)).+1,
          size (__gc_err__ h') = (size (__gc_err__ h)).+1,
          size (__gw__ h') = (size (__gw__ h)).+1
        & size (__gw_err__ h') = (size (__gw_err__ h)).+1],
      size (__fe__ h') = (size (__fe__ h) + ~~ imaginary fl)%N,
      size (__fe_err__ h') = (size (__fe_err__ h) + ~~ imaginary fl)%N
    & size (__KL__ h') = (size (__KL__ h) + ~~ imaginary fl)%N].
Proof.
move=> Hpre Hpost; rewrite /loop_body.
have [Hc0 Hh0] := Hpre self.
case Hstep: (minimization_step _ _) => [s1| |] //=.
have [_ Hfe1 HKL1 _] := minimization_step_frame Hstep.
have [Hgc Hgce Hgw Hgwe Hfee1] := minimization_step_sizes Hstep.
case: (check_imaginary_frequencies s1) => //= -[].
  case=> <- _ <- /=; rewrite !addn0 Hgc Hgce Hgw Hgwe Hfe1 Hfee1 HKL1 Hh0.
  by split.
case: (get_free_energy_per_cell ens s1) => //= -[fe err].
case Hstop: (check_stop _) => [[s3 stop]| |] //=.
have [Hc3 Hh3 _ _] := check_stop_frame Hstop.
have [Hc4 Hh4] := Hpost s3.
case=> <- _ <- /=; rewrite Hh4 Hh3 /= !size_rcons !addn1.
by rewrite Hgc Hgce Hgw Hgwe Hfe1 Hfee1 HKL1 Hh0.
Qed.

Lemma run_loop_growth pre post gradient :
  quiet pre -> quiet post ->
  forall fuel self ka x,
  run_loop fuel pre post gradient self ka = Some (Ok x) ->
  let h := history self in
  let h' := history (final x) in
  let b : nat := imaginary (flags x) in
  [/\ [/\ (size (__gc__ h') + ka = size (__gc__ h) + passes x)%N,
          (size (__gc_err__ h') + ka = size (__gc_err__ h) + passes x)%N,
          (size (__gw__ h') + ka = size (__gw__ h) + passes x)%N
        & (size (__gw_err__ h') + ka = size (__gw_err__ h) + passes x)%N],
      (size (__fe__ h') + ka + b = size (__fe__ h) + passes x)%N,
      (size (__fe_err__ h') + ka + b = size (__fe_err__ h) + passes x)%N
    & (size (__KL__ h') + ka + b = size (__KL__ h) + passes x)%N].
Proof.
move=> Hpre Hpost; elim=> [|fuel IH] self ka x //=.
case Hbody: (loop_body _ _ _ _) => [[[s' old] fl]| |] //.
have [[H1 H2 H3 H4] H5 H6 H7] := loop_body_sizes Hpre Hpost Hbody.
case: ifP => [Hrun|_ [<-] /=]; last first.
  rewrite H1 H2 H3 H4 H5 H6 H7 !addSn !addnS; split=> //.
  - by case: (imaginary fl); rewrite /= ?addn0 ?addn1 ?addnS ?addSn.
  - by case: (imaginary fl); rewrite /= ?addn0 ?addn1 ?addnS ?addSn.
  - by case: (imaginary fl); rewrite /= ?addn0 ?addn1 ?addnS ?addSn.
have Him : imaginary fl = false.
  by move: Hrun; rewrite /running !negb_or => /andP [/andP [/negbTE]].
move=> /IH [[]]; rewrite H1 H2 H3 H4 H5 H6 H7 Him /= !addn1 !addnS !addSn.
by move=> [->] [->] [->] [->] [->] [->] [->].
Qed.

Lemma after_passes_exit pre post gradient fuel self x :
  run_loop fuel pre post gradient self 0 = Some (Ok x) ->
  exists last,
    [/\ after_passes pre post gradient (passes x).-1 self = Ok last,
        loop_body pre post gradient last = Ok (final x, old_dyn x, flags x)
      & (0 < passes x)%N].
Proof.
move=> /run_loopP [k [last [Hk Hlast _ ->]]].
by exists last; rewrite add0n.
Qed.

Lemma restore_history (x : loop_exit C nat_ QGrid Ens) :
  history (restore ens x) = history (final x).
Proof. by rewrite /restore; case: ifP. Qed.

Lemma after_passes_last pre post gradient k self last r :
  after_passes pre post gradient k self = Ok last ->
  loop_body pre post gradient last = Ok r ->
  after_passes pre post gradient k.+1 self = Ok r.1.1.
Proof.
elim: k self => [|k IH] self /=; first by case=> -> ->.
case: (loop_body pre post gradient self) => [[[s' old'] fl']| |] //= Hk Hr.
by have := IH _ Hk Hr.
Qed.

(** X16: the budget counts the free energies stored since [init], not
    the passes of this call: when the list is already as long as a
    positive [max_ka], [run] makes one pass, what the loop leaves is
    what that one pass leaves of the minimizer [run] was given, and the
    loop ends on the budget. *)
Theorem run_budget_counts_history pre post gradient self :
  quiet pre -> quiet post ->
  0 < max_ka (config self) ->
  max_ka (config self) <= (size (__fe__ (history self)))%:Z ->
  only_maximum pre post gradient (set_converged self false) 0 ->
  forall fuel,
  exists x,
    [/\ run_loop fuel.+1 pre post gradient (set_converged self false) 0
        = Some (Ok x),
        passes x = 1%N,
        flags x = {| imaginary := false; stopped := false;
                     maximum_reached := true |},
        loop_body pre post gradient (set_converged self false)
        = Ok (final x, old_dyn x, flags x)
      & run fuel.+1 pre post gradient self = Some (Ok (restore ens x))].
Proof.
move=> Hpre Hpost Hpos Hlen /only_maximum_first [s' [old [fl [Hbody Him Hst]]]] fuel.
have [Hc Hfe Hfl] := loop_body_history Hpre Hpost Hbody Him.
have Hflags : fl = {| imaginary := false; stopped := false;
                      maximum_reached := true |}.
  case: fl Him Hst Hfl {Hbody} => i s m /= /negbTE -> /negbTE -> ->.
  rewrite Hpos andbT Hfe /=.
  by rewrite (le_lt_trans Hlen) // ltz_nat.
exists {| final := s'; old_dyn := old; flags := fl; passes := 1 |}.
by rewrite /run /= Hbody Hflags.
Qed.

(** X17: a [run] that returns lengthens the four gradient lists by one
    entry per pass, and the free-energy, error and sample-size lists by
    as many, less one when the last pass broke on an imaginary
    frequency; [run] clears no list.  For a [run] on the minimizer as
    [init] returned it, the gradient lists then hold one entry per
    pass. *)
Theorem run_history_lengths fuel pre post gradient self result :
  quiet pre -> quiet post ->
  run fuel pre post gradient self = Some (Ok result) ->
  exists x,
    [/\ run_loop fuel pre post gradient (set_converged self false) 0
        = Some (Ok x),
        result = restore ens x,
        let h := history self in
        let h' := history result in
        let k := passes x in
        let b : nat := imaginary (flags x) in
        [/\ size (__gc__ h') = (size (__gc__ h) + k)%N,
            size (__gc_err__ h') = (size (__gc_err__ h) + k)%N,
            size (__gw__ h') = (size (__gw__ h) + k)%N
          & size (__gw_err__ h') = (size (__gw_err__ h) + k)%N] /\
        [/\ (size (__fe__ h') + b = size (__fe__ h) + k)%N,
            (size (__fe_err__ h') + b = size (__fe_err__ h) + k)%N
          & (size (__KL__ h') + b = size (__KL__ h) + k)%N]
      & forall start, init start = Ok self ->
        let h' := history result in
        let k := passes x in
        let b : nat := imaginary (flags x) in
        [/\ size (__gc__ h') = k, size (__gc_err__ h') = k,
            size (__gw__ h') = k & size (__gw_err__ h') = k] /\
        [/\ (size (__fe__ h') + b = k.+1)%N,
            (size (__fe_err__ h') + b = k.+1)%N
          & (size (__KL__ h') + b = k.+1)%N]].
Proof.
move=> Hpre Hpost; rewrite /run.
case Hloop: (run_loop _ _ _ _ _ _) => [[x| |]|] //= [<-].
have [[G1 G2 G3 G4] F1 F2 F3] := run_loop_growth Hpre Hpost Hloop.
move: G1 G2 G3 G4 F1 F2 F3; rewrite /= !addn0 => G1 G2 G3 G4 F1 F2 F3.
exists x; split=> //; rewrite restore_history //.
move=> start /init_lists /= [[I1 I2 I3] [J1 J2 J3 J4] _].
by rewrite G1 G2 G3 G4 F1 F2 F3 I1 I2 I3 J1 J2 J3 J4 /= !add0n !add1n.
Qed.

(** C7: after [init], with [max_ka = 3] and every pass stopping on
    nothing else, the loop makes exactly 3 passes and leaves on the
    step budget: what it leaves is the state after two passes put
    through a third, and three gradients and four free energies are
    stored; with a negative [max_ka] and no other stop it never leaves,
    whatever the number of passes allowed. *)
Theorem run_max_ka pre post gradient start self :
  quiet pre -> quiet post -> init start = Ok self ->
  let entry := set_converged self false in
  [/\ max_ka (config self) = 3 ->
      (forall k, (k < 3)%N -> only_maximum pre post gradient entry k) ->
      forall fuel, (3 <= fuel)%N ->
      exists x last,
        [/\ [/\ run_loop fuel pre post gradient entry 0 = Some (Ok x),
                passes x = 3%N,
                flags x = {| imaginary := false; stopped := false;
                             maximum_reached := true |}
              & run fuel pre post gradient self = Some (Ok (restore ens x))],
            [/\ after_passes pre post gradient 2 entry = Ok last,
                loop_body pre post gradient last
                = Ok (final x, old_dyn x, flags x)
              & after_passes pre post gradient 3 entry = Ok (final x)]
          & [/\ size (__gc__ (history (final x))) = 3%N,
                size (__gw__ (history (final x))) = 3%N
              & size (__fe__ (history (final x))) = 4%N]]
    & max_ka (config self) < 0 ->
      (forall k, only_maximum pre post gradient entry k) ->
      forall fuel, run fuel pre post gradient self = None].
Proof.
move=> Hpre Hpost Hinit /=; have Hfe := init_history Hinit; split.
- move=> Hmax Hother fuel Hfuel.
  have [x [Hx Hp Hf]] :=
    @run_loop_maximum _ _ _ _ ens sym ph np pre post gradient 3 2 Hpre Hpost isT
      (set_converged self false) 0%N fuel Hmax (f_equal (addn^~ 3) Hfe)
      Hother Hfuel.
  have [last [Hlast Hbody _]] := after_passes_exit Hx.
  have [[G1 _ G3 _] F1 _ _] := run_loop_growth Hpre Hpost Hx.
  have [[I1 _ _] [J1 _ J3 _] _] := init_lists Hinit.
  exists x, last; split.
  + by split=> //; rewrite /run Hx.
  + move: Hlast; rewrite Hp => Hlast.
    by have H3 := after_passes_last Hlast Hbody; split.
  + move: G1 G3 F1; rewrite /= !addn0 Hp Hf J1 J3 I1 /= addn0.
    by move=> -> -> ->.
- move=> Hneg Hother fuel.
  by rewrite /run (@run_loop_unbounded _ _ _ _ ens sym ph np pre post gradient
               Hpre Hpost fuel (set_converged self false) 0%N Hneg Hother).
Qed.

(** *** The convergence flag *)

Lemma check_stop_cases self s3 stop :
  check_stop self = Ok (s3, stop) ->
  [\/ [/\ total_cond self = Ok true, s3 = set_converged self true & stop],
      s3 = set_converged self false /\ stop
    | s3 = self].
Proof.
rewrite /check_stop; case: (total_cond self) => //= -[].
  by case=> <- <-; constructor 1.
case: (fdiv _ _) => //= ratio; case: ifP => _.
  by case=> <- <-; constructor 2.
by case: (check_imaginary_frequencies self) => //= b [<- _]; constructor 3.
Qed.

Lemma total_cond_eq (a b : SSCHA_Minimizer) :
  config a = config b -> history a = history b -> total_cond a = total_cond b.
Proof. by rewrite /total_cond => -> ->. Qed.

Lemma loop_body_converged pre post gradient self s' old fl :
  keeps_converged pre -> quiet post -> keeps_converged post ->
  __converged__ self = false ->
  loop_body pre post gradient self = Ok (s', old, fl) ->
  (running fl -> __converged__ s' = false) /\
  (__converged__ s' -> total_cond s' = Ok true).
Proof.
move=> Hpre Hpost Hpost' Hflag; rewrite /loop_body.
case Hstep: (minimization_step _ _) => [s1| |] //=.
have [_ _ _ Hf1] := minimization_step_frame Hstep.
have {}Hf1 : __converged__ s1 = false by rewrite Hf1 Hpre.
case: (check_imaginary_frequencies s1) => //= -[].
  by case=> <- _ _; rewrite Hf1.
case: (get_free_energy_per_cell ens s1) => //= -[fe err].
set s2 := set_history _ _.
case Hstop: (check_stop s2) => [[s3 stop]| |] //= [<- _ <-].
have [Hc4 Hh4] := Hpost s3.
rewrite Hpost' (total_cond_eq Hc4 Hh4).
case: (check_stop_cases Hstop) => [[Hcond -> Hs]|[-> Hs]|->].
- by split=> [|_]; [rewrite /running /= Hs | exact: Hcond].
- by split.
- by rewrite /= Hf1.
Qed.

Lemma run_loop_converged pre post gradient :
  keeps_converged pre -> quiet post -> keeps_converged post ->
  forall fuel self ka x,
  __converged__ self = false ->
  run_loop fuel pre post gradient self ka = Some (Ok x) ->
  __converged__ (final x) -> total_cond (final x) = Ok true.
Proof.
move=> Hpre Hpost Hpost'; elim=> [|fuel IH] self ka x //= Hflag.
case Hbody: (loop_body _ _ _ _) => [[[s' old] fl]| |] //.
have [H1 H2] := loop_body_converged Hpre Hpost Hpost' Hflag Hbody.
case: ifP => [/H1 Hs'|_ [<-] //].
exact: IH.
Qed.

(** X18: when [run] returns with [is_converged()] true, the latest
    gradients it stored meet the convergence test of [check_stop]
    (hooks that leave the flag, the lists and the options alone). *)
Theorem run_converged_sound fuel pre post gradient self result :
  keeps_converged pre -> quiet post -> keeps_converged post ->
  run fuel pre post gradient self = Some (Ok result) ->
  is_converged result -> total_cond result = Ok true.
Proof.
move=> Hpre Hpost Hpost'; rewrite /run.
case Hloop: (run_loop _ _ _ _ _ _) => [[x| |]|] //= [<-].
rewrite /restore /is_converged; case: ifP => [/negbTE Hn /=|/negbFE Hconv _].
  by rewrite Hn.
exact: (run_loop_converged Hpre Hpost Hpost' _ Hloop).
Qed.

(** *** The constructor *)

(** X19: a minimizer as the constructor builds it has both
    preconditioners on: [init] fails on it for every root
    representation other than normal, and otherwise leaves
    [min_step_struc = 1], the ensemble it was given and the symmetrized
    matrices of its [current_dyn]. *)
Theorem constructed_minimizer_init e root kl mf alg lambda_a :
  let start := __init__ e root kl mf alg lambda_a in
  [/\ root != "normal"%string -> forall self, init start <> Ok self
    & forall self, init start = Ok self ->
      [/\ root = "normal"%string, min_step_struc self = 1,
          ensemble self = e
        & dynmats (dyn self) =
          take (size (dynmats (current_dyn ens e)))
            (SymmetrizeFCQ sym (current_dyn ens e)
               (dynmats (current_dyn ens e)) "custom")]].
Proof.
move=> start; split.
  by move=> Hroot self /initE [s1 [_]]; rewrite /= Hroot.
move=> self /initE [s1 [/init_preludeE [fe [err ->]]]] /=.
by rewrite andbT => /negbNE/eqP -> ->.
Qed.

End MinimizerMore.

(** ** The further properties on the two-atom crystal *)

Local Notation noisy := toy_noisy_ensemble.
Local Notation tinit e := (init e toy_symmetry toy_phonons toy_numpy).

Lemma check_imaginary_frequencies_sound_witness :
  let self := toy_minimizer (toy_config "normal" true true false 3) 1 [::]
                (toy_init_history 1) in
  let w := nontranslational
             (supercell_modes toy_phonons (toy_dyn 1) [:: 1; 1; 1]%N) in
  [/\ check_imaginary_frequencies rest toy_phonons self = Ok false ->
      forall x, x \in w -> 0 <= x
    & check_imaginary_frequencies rest toy_phonons self = Ok true ->
      exists2 x, x \in w & x < 0].
Proof.
move=> self w.
apply: (@check_imaginary_frequencies_sound algC 2 unit ToyPhonons rest
          toy_phonons self).
- by rewrite /= toy_lowestE !real1.
- by rewrite /= toy_lowestE !lexx.
Defined.

Lemma check_stop_after_init_witness :
  check_stop rest toy_phonons
    (toy_minimizer (toy_config "normal" true true false 3) 1 [:: 0%:M]
       (toy_init_history 1))
  = Raise IndexError.
Proof. exact: (check_stop_after_init (toy_init 0 1 true 3)). Defined.

Lemma init_keeps_ensemble_witness :
  let start := toy_minimizer (toy_config "normal" true true false 3) 1 [::]
                 (empty_history algC) in
  let self := toy_minimizer (toy_config "normal" true true false 3) 1
                [:: 0%:M] (toy_init_history 1) in
  [/\ config self = config start,
      ensemble self = ensemble start,
      structure (dyn self) = structure (dyn start)
    & dynmats (dyn self) =
      take (size (dynmats (dyn start)))
        (SymmetrizeFCQ toy_symmetry (dyn start) (dynmats (dyn start)) "custom")].
Proof. exact: (init_keeps_ensemble (toy_init 0 1 true 3)). Defined.

(** *** [init] without the structure preconditioner *)

Lemma np_max_const (C : numClosedFieldType) (T : Type) (s : seq T) (c : C) :
  (0 < size s)%N -> np_max [seq c | _ <- s] = Ok c.
Proof.
case: s => [|a s] //= _; congr Ok.
by elim: s => //= b s IH; rewrite maxxx.
Qed.

Lemma toy_best_step (x : algC) :
  x \is Num.real -> x != 0 ->
  GetBestWykoffStep toy_phonons toy_numpy (toy_dyn x) = Ok (1 / x * 1 ^+ 2).
Proof.
move=> Hr Hx; rewrite /GetBestWykoffStep /=.
rewrite (@eq_map _ _ _ (fun _ => x)).
  by move=> a; rewrite /= !mxE eqxx mulr1n; apply/Creal_ReP.
rewrite np_max_const; first by rewrite size_enum_ord.
by rewrite /= /fdiv (negbTE Hx).
Qed.

Lemma toy_init_unscaled pd M (x m : algC) prev h :
  0 < x ->
  tinit rest
    (set_min_step_struc
       (toy_minimizer (toy_config "normal" false pd false M) x prev h) m)
  = Ok (set_min_step_struc
          (toy_minimizer (toy_config "normal" false pd false M) x [:: 0%:M]
             (toy_init_history 1))
          (m * (1 / x * 1 ^+ 2))).
Proof.
move=> Hx; rewrite /init /init_prelude /store_blocks [size _]/= leqnn [bind _ _]/=.
rewrite /check_imaginary_frequencies /= toy_lowestE (lt_gtF Hx) /=.
rewrite /get_free_energy_per_cell /= /fdiv !big_cons big_nil !muln1.
rewrite oner_eq0 /= mul0r /=.
by rewrite toy_best_step ?gtr0_real ?gt_eqF.
Qed.

Lemma init_rescales_each_time_witness :
  let cfg := toy_config "normal" false true false 3 in
  let s1 := set_min_step_struc
              (toy_minimizer cfg 2%:R [:: 0%:M] (toy_init_history 1))
              (1 * (1 / 2%:R * 1 ^+ 2)) in
  let s2 := set_min_step_struc
              (toy_minimizer cfg 2%:R [:: 0%:M] (toy_init_history 1))
              (1 * (1 / 2%:R * 1 ^+ 2) * (1 / 2%:R * 1 ^+ 2)) in
  exists best1 best2,
    [/\ GetBestWykoffStep toy_phonons toy_numpy (dyn s1) = Ok best1,
        GetBestWykoffStep toy_phonons toy_numpy (dyn s2) = Ok best2
      & min_step_struc s2 = 1 * best1 * best2].
Proof.
move=> cfg s1 s2.
have H2 : (0 : algC) < 2%:R by rewrite ltr0n.
exact: (@init_rescales_each_time algC 2 unit ToyPhonons rest toy_symmetry
          toy_phonons toy_numpy
          (toy_minimizer cfg 2%:R [::] (empty_history algC)) s1 s2 isT
          (toy_init_unscaled true 3 1 [::] (empty_history algC) H2)
          (toy_init_unscaled true 3 _ _ _ H2)).
Defined.

(** *** [minimization_step] *)

Lemma minimization_step_without_structure_witness :
  let self := toy_minimizer (toy_config "normal" true true false 3) 1 [::]
                (toy_init_history 1) in
  [/\ (1 <= 1)%N -> (1 <= 1)%N ->
      forall f, tmin rest self (Some f) = Raise TypeError
    & forall self', tmin rest self None = Ok self' ->
      [/\ structure (dyn self') = structure (dyn self),
          last_item (__gw__ (history self')) = Ok 0
        & last_item (__gw_err__ (history self')) = Ok 0]].
Proof.
move=> self.
exact: (@minimization_step_without_structure algC 2 unit ToyPhonons rest
          toy_symmetry toy_phonons toy_numpy self isT).
Defined.

Lemma minimization_step_updates_witness :
  let self := toy_minimizer (toy_config "normal" true true false 3) 1 [::]
                (toy_init_history 1) in
  let self' := toy_minimizer (toy_config "normal" true true false 3) (1 - 2%:R)
                 [:: 2%:R%:M] (toy_stepped_history 2%:R (toy_init_history 1)) in
  [/\ ensemble self' =
      update_weights steep (ensemble self) (dyn self') (current_T steep (ensemble self)),
      size (dynmats (dyn self')) = size (dynmats (dyn self)),
      masses (structure (dyn self')) = masses (structure (dyn self))
    & min_step_struc self' = min_step_struc self].
Proof.
exact: (minimization_step_updates
          (toy_minimization_step 2%:R 1 true true 3 1 [::] (toy_init_history 1))).
Defined.

(** *** The loop *)

Lemma run_max_ka_zero_witness :
  let self := toy_minimizer (toy_config "normal" true true false 0) 1 [:: 0%:M]
                (toy_init_history 1) in
  max_ka (config self) = 0 /\
  forall fuel, trun rest fuel None None None self = None.
Proof.
move=> self; split=> //.
apply: (@run_max_ka_zero algC 2 unit ToyPhonons rest toy_symmetry toy_phonons
          toy_numpy None None None self
          (@quiet_None _ _ _ _) (@quiet_None _ _ _ _) (erefl _)).
by move=> k; exact: toy_only_maximum.
Defined.

Lemma run_max_ka_witness :
  let entry := toy_minimizer (toy_config "normal" true true false 3) 1
                 [:: 0%:M] (toy_init_history 1) in
  (exists x last,
     [/\ [/\ trun_loop rest 5 None None None entry 0 = Some (Ok x),
             passes x = 3%N,
             flags x = {| imaginary := false; stopped := false;
                          maximum_reached := true |}
           & trun rest 5 None None None entry = Some (Ok (restore rest x))],
         [/\ after_passes rest toy_symmetry toy_phonons toy_numpy
               None None None 2 entry = Ok last,
             loop_body rest toy_symmetry toy_phonons toy_numpy
               None None None last = Ok (final x, old_dyn x, flags x)
           & after_passes rest toy_symmetry toy_phonons toy_numpy
               None None None 3 entry = Ok (final x)]
       & [/\ size (__gc__ (history (final x))) = 3%N,
             size (__gw__ (history (final x))) = 3%N
           & size (__fe__ (history (final x))) = 4%N]]) /\
  (forall fuel,
     trun rest fuel None None None
       (toy_minimizer (toy_config "normal" true true false (-1)) 1 [:: 0%:M]
          (toy_init_history 1)) = None).
Proof.
move=> entry; split.
- have [H _] := @run_max_ka _ _ _ _ rest toy_symmetry toy_phonons toy_numpy
      None None None _ _
      (@quiet_None _ _ _ _) (@quiet_None _ _ _ _) (toy_init 0 1 true 3).
  exact: (H (erefl _) (fun k _ => toy_only_maximum _ _ _ _ _ k) 5%N isT).
- have [_ H] := @run_max_ka _ _ _ _ rest toy_symmetry toy_phonons toy_numpy
      None None None _ _
      (@quiet_None _ _ _ _) (@quiet_None _ _ _ _) (toy_init 0 1 true (-1)).
  apply: H; first by [].
  by move=> k; exact: toy_only_maximum.
Defined.

Lemma run_budget_counts_history_witness :
  let self := toy_minimizer (toy_config "normal" true true false 2) 1 [:: 0%:M]
                (toy_pass_history 0 1 (toy_pass_history 0 1 (toy_init_history 1))) in
  exists x,
    [/\ trun_loop rest 1 None None None (set_converged self false) 0
        = Some (Ok x),
        passes x = 1%N,
        flags x = {| imaginary := false; stopped := false;
                     maximum_reached := true |},
        loop_body rest toy_symmetry toy_phonons toy_numpy None None None
          (set_converged self false) = Ok (final x, old_dyn x, flags x)
      & trun rest 1 None None None self = Some (Ok (restore rest x))].
Proof.
move=> self.
apply: (@run_budget_counts_history algC 2 unit ToyPhonons rest toy_symmetry
          toy_phonons toy_numpy None None None self
          (@quiet_None _ _ _ _) (@quiet_None _ _ _ _)).
- by [].
- by [].
- exact: toy_only_maximum.
Defined.

Lemma run_history_lengths_witness :
  let self := toy_minimizer (toy_config "normal" true true false 3) 1
                [:: 2%:R%:M] (toy_init_history 1) in
  let result := toy_minimizer (toy_config "normal" true true false 3) 1
                  [:: 2%:R%:M] (toy_stepped_history 2%:R (toy_init_history 1)) in
  exists x,
    [/\ trun_loop steep 1 None None None (set_converged self false) 0
        = Some (Ok x),
        result = restore steep x,
        let h := history self in
        let h' := history result in
        let k := passes x in
        let b : nat := imaginary (flags x) in
        [/\ size (__gc__ h') = (size (__gc__ h) + k)%N,
            size (__gc_err__ h') = (size (__gc_err__ h) + k)%N,
            size (__gw__ h') = (size (__gw__ h) + k)%N
          & size (__gw_err__ h') = (size (__gw_err__ h) + k)%N] /\
        [/\ (size (__fe__ h') + b = size (__fe__ h) + k)%N,
            (size (__fe_err__ h') + b = size (__fe_err__ h) + k)%N
          & (size (__KL__ h') + b = size (__KL__ h) + k)%N]
      & forall start,
        init steep toy_symmetry toy_phonons toy_numpy start = Ok self ->
        let h' := history result in
        let k := passes x in
        let b : nat := imaginary (flags x) in
        [/\ size (__gc__ h') = k, size (__gc_err__ h') = k,
            size (__gw__ h') = k & size (__gw_err__ h') = k] /\
        [/\ (size (__fe__ h') + b = k.+1)%N,
            (size (__fe_err__ h') + b = k.+1)%N
          & (size (__KL__ h') + b = k.+1)%N]].
Proof.
move=> self result.
exact: (@run_history_lengths algC 2 unit ToyPhonons steep toy_symmetry
          toy_phonons toy_numpy 1 None None None self result
          (@quiet_None _ _ _ _) (@quiet_None _ _ _ _)
          (toy_steep_run true true 3 [:: 2%:R%:M] (toy_init_history 1))).
Defined.

(** *** A pass that converges *)

Lemma gradient_metric1 :
  gradient_metric [:: (1%:M : 'M[algC]_(2 * 3))] = (2 * 3)%:R.
Proof.
rewrite /gradient_metric big_seq1.
have -> : \sum_b \sum_c (1%:M : 'M[algC]_(2 * 3)) b c * (1%:M : 'M[algC]_(2 * 3)) c b
          = \tr ((1%:M : 'M[algC]_(2 * 3)) *m 1%:M).
  by apply: eq_bigr => b _; rewrite mxE.
by rewrite mulmx1 mxtrace1 (Creal_ReP _ _) ?realn.
Qed.

Lemma toy_noisy_step pw pd M x prev h :
  tmin noisy (toy_minimizer (toy_config "normal" pw pd false M) x prev h) None
  = Ok (toy_minimizer (toy_config "normal" pw pd false M) x [:: 0]
          (append_gc (append_gw h 0 0)
             (gradient_metric [:: (0 : 'M[algC]_(2 * 3))])
             (gradient_metric [:: (1%:M : 'M[algC]_(2 * 3))]))).
Proof.
rewrite /minimization_step /=.
rewrite /PerformRootStep /= /all_finite /= /store_blocks /= /update /=.
by rewrite /toy_minimizer /toy_dyn /set_dynmats /= scaler0 subr0.
Qed.

Lemma toy_noisy_run pw pd M prev h :
  trun noisy 1 None None None
    (toy_minimizer (toy_config "normal" pw pd false M) 1 prev h)
  = Some (Ok (set_converged
                (toy_minimizer (toy_config "normal" pw pd false M) 1 [:: 0]
                   (toy_noisy_history h)) true)).
Proof.
rewrite /run /= /loop_body /call.
rewrite (_ : set_converged _ _ =
             toy_minimizer (toy_config "normal" pw pd false M) 1 prev h) //.
rewrite toy_noisy_step [bind _ _]/=.
rewrite /check_imaginary_frequencies /= toy_lowestE ltr10 /=.
rewrite /get_free_energy_per_cell /= /fdiv !big_cons big_nil !muln1.
rewrite oner_eq0 /= mul0r /=.
rewrite /check_stop /total_cond /= !last_item_rcons /=.
have -> : gradient_metric [:: (0 : 'M[algC]_(2 * 3))]
          < gradient_metric [:: (1%:M : 'M[algC]_(2 * 3))] * 10%:R^-1.
  by rewrite gradient_metric0 gradient_metric1 divr_gt0 ?ltr0n.
by [].
Qed.

Lemma keeps_converged_None (C : numClosedFieldType) nat_ QGrid Ens :
  @keeps_converged C nat_ QGrid Ens None.
Proof. by []. Qed.

Lemma run_converged_sound_witness :
  total_cond
    (set_converged
       (toy_minimizer (toy_config "normal" true true false 3) 1 [:: 0]
          (toy_noisy_history (toy_init_history 1))) true)
  = Ok true.
Proof.
exact: (@run_converged_sound algC 2 unit ToyPhonons noisy toy_symmetry
          toy_phonons toy_numpy 1 None None None _ _
          (@keeps_converged_None _ _ _ _) (@quiet_None _ _ _ _)
          (@keeps_converged_None _ _ _ _)
          (toy_noisy_run true true 3 [:: 0] (toy_init_history 1)) isT).
Defined.

(** *** Degenerate matrices and the constructor *)

Lemma GetBestWykoffStep_degenerate_witness :
  GetBestWykoffStep toy_phonons toy_numpy (set_dynmats (toy_dyn 0) [::])
  = Raise IndexError /\
  GetBestWykoffStep toy_phonons toy_numpy (toy_dyn 0) = NonFinite.
Proof.
split.
- have [H _] := @GetBestWykoffStep_degenerate algC 2 unit toy_phonons toy_numpy
                  (set_dynmats (toy_dyn 0) [::]).
  exact: H.
- have [_ H] := @GetBestWykoffStep_degenerate algC 2 unit toy_phonons toy_numpy
                  (toy_dyn 0).
  apply: (H 0%:M [::] (erefl _)).
  + by move=> a; rewrite /= !mxE eqxx mulr1n raddf0.
  + by exists ord0; rewrite /= !mxE eqxx mulr1n raddf0.
Defined.

Lemma toy_constructed_init :
  exists self,
    tinit rest (__init__ rest (toy_dyn 1) "normal" 2%:R^-1 10%:R^-1 "sdes" 1)
    = Ok self.
Proof.
rewrite /init /init_prelude /store_blocks [size _]/= leqnn [bind _ _]/=.
rewrite /check_imaginary_frequencies /= toy_lowestE ltr10 /=.
rewrite /get_free_energy_per_cell /= /fdiv !big_cons big_nil !muln1.
rewrite oner_eq0 /= mul0r /=.
by eexists.
Qed.

Lemma constructed_minimizer_init_witness :
  exists self,
    tinit rest (__init__ rest (toy_dyn 1) "normal" 2%:R^-1 10%:R^-1 "sdes" 1)
    = Ok self /\
    [/\ "normal"%string = "normal"%string, min_step_struc self = 1,
        ensemble self = toy_dyn 1
      & dynmats (dyn self) =
        take (size (dynmats (current_dyn rest (toy_dyn 1))))
          (SymmetrizeFCQ toy_symmetry (current_dyn rest (toy_dyn 1))
             (dynmats (current_dyn rest (toy_dyn 1))) "custom")].
Proof.
have [self Hself] := toy_constructed_init.
have [_ H] := @constructed_minimizer_init algC 2 unit ToyPhonons rest
                toy_symmetry toy_phonons toy_numpy (toy_dyn 1) "normal"
                2%:R^-1 10%:R^-1 "sdes" 1.
by exists self; split=> //; apply: H.
Defined.
